(** * A shallow embedding of the regression engine (regression.go)

    The Go package keeps one mutable [Regression] record whose [Data] field is
    a slice of pointers to [DataPoint] objects.  The embedding follows that
    layout:

    - [float64] is Rocq's primitive binary64 [float]; every operation is
      rounded on its own (no fused multiply-add);
    - a [*DataPoint] is an address into a [store] of data points, so that the
      same point registered twice is one shared object; an address with no
      object behind it stands for a nil pointer;
    - a [[]float64] is a [list float] and [append] is list concatenation
      (backing arrays of distinct slices are taken not to overlap);
    - [map[int]T] is a [gmap Z T];
    - a Go call that may panic returns an [option]: [None] is the panic;
    - the matrix package, [math.Pow] and the [%.4f] formatter are not part of
      the package: they are the fields of the class [Collaborators]. *)

From Stdlib Require Import Floats ZArith DecimalString.
From stdpp Require Import gmap strings list.

(** ** Go runtime helpers *)

(** [int] is a 64-bit two's complement integer. *)
Definition wrap64 (z : Z) : Z := ((z + 2 ^ 63) `mod` 2 ^ 64 - 2 ^ 63)%Z.

(** [float64(n)] for a length [n]. *)
Definition float64_of_len (n : nat) : float :=
  of_uint63 (Uint63.of_Z (Z.of_nat n)).

(** [strconv.Itoa]. *)
Definition Itoa (i : Z) : string := NilZero.string_of_int (Z.to_int i).

(** [l[i]] for a Go [int] index: a panic outside [0 .. len(l)-1]. *)
Definition index {A} (l : list A) (i : Z) : option A :=
  if decide (0 ≤ i)%Z then l !! Z.to_nat i else None.

(** [l[i] = v]: a panic outside the slice. *)
Definition slice_set {A} (l : list A) (i : nat) (v : A) : option (list A) :=
  if decide (i < length l) then Some (<[i:=v]> l) else None.

(** [for i := lo; i < lo+n; i++ { s = body i s }], stopping at a panic. *)
Fixpoint for_up {St} (n lo : nat) (body : nat → St → option St) (s : St)
  : option St :=
  match n with
  | 0 => Some s
  | S n' => s' ← body lo s; for_up n' (S lo) body s'
  end.

(** [for i := lo; i < hi; i++]. *)
Definition for_range {St} (lo hi : nat) (body : nat → St → option St) (s : St)
  : option St :=
  for_up (hi - lo) lo body s.

(** [for i := n-1; i >= 0; i--]. *)
Fixpoint for_down {St} (n : nat) (body : nat → St → option St) (s : St)
  : option St :=
  match n with
  | 0 => Some s
  | S i => s' ← body i s; for_down i body s'
  end.

(** [for _, x := range l { s = body x s }]. *)
Fixpoint for_each {A St} (l : list A) (body : A → St → option St) (s : St)
  : option St :=
  match l with
  | [] => Some s
  | x :: l' => s' ← body x s; for_each l' body s'
  end.

(** [for i, x := range l], the index starting at [i0]. *)
Fixpoint for_each_i {A St} (i0 : nat) (l : list A)
    (body : nat → A → St → option St) (s : St) : option St :=
  match l with
  | [] => Some s
  | x :: l' => s' ← body i0 x s; for_each_i (S i0) l' body s'
  end.

(** ** External collaborators

    [github.com/skelterjohn/go.matrix], [math.Pow] and [fmt]'s [%.4f] verb.
    Matrices are local to one call of [Run], so [Set] is a functional
    update. [Times] returns a matrix and an error value, as in Go. *)
Class Collaborators := {
  matrix : Type;
  lib_error : Type;
  Zeros : nat → nat → matrix;
  mSet : matrix → nat → nat → float → matrix;
  mGet : matrix → nat → nat → float;
  Rows : matrix → nat;
  Cols : matrix → nat;
  QR : matrix → matrix * matrix;
  Transpose : matrix → matrix;
  Times : matrix → matrix → matrix * option lib_error;
  math_Pow : float → float → float;
  fmt_f4 : float → string
}.

(** What the regression code relies on from the dense matrix container:
    [Zeros r c] is [r] by [c], and [Set] then [Get] inside the matrix behaves
    as an array. Nothing is assumed of [QR], [Transpose] and [Times]. *)
Class MatrixContract `{Collaborators} : Prop := {
  Rows_Zeros r c : Rows (Zeros r c) = r;
  Cols_Zeros r c : Cols (Zeros r c) = c;
  Rows_mSet m i j v : Rows (mSet m i j v) = Rows m;
  Cols_mSet m i j v : Cols (mSet m i j v) = Cols m;
  mGet_mSet_eq m i j v :
    i < Rows m → j < Cols m → mGet (mSet m i j v) i j = v;
  mGet_mSet_ne m i j i' j' v :
    i < Rows m → j < Cols m → i' < Rows m → j' < Cols m →
    (i, j) ≠ (i', j') → mGet (mSet m i j v) i' j' = mGet m i' j'
}.

(** ** Data model *)

(** [DataPoint]. *)
Record DataPoint := mkDataPoint {
  Observed : float;
  Variables : list float;
  Predicted : float;
  Error : float
}.

Definition set_Variables (v : list float) (d : DataPoint) : DataPoint :=
  mkDataPoint (Observed d) v (Predicted d) (Error d).
Definition set_Predicted (p : float) (d : DataPoint) : DataPoint :=
  mkDataPoint (Observed d) (Variables d) p (Error d).
Definition set_Error (e : float) (d : DataPoint) : DataPoint :=
  mkDataPoint (Observed d) (Variables d) (Predicted d) e.

(** The heap of data points; a [*DataPoint] is an address into it. *)
Abbreviation ptr := nat (only parsing).
Abbreviation store := (list DataPoint) (only parsing).

(** [Describe]. *)
Record Describe := mkDescribe {
  Obs : string;
  Vars : gmap Z string
}.

(** The [featureCross] interface.  [Calculate] reads a variable vector and
    returns the derived values; [ExtendNames] writes names into the name table
    from a starting index and returns the updated table with the number of
    variables it introduced.  Either may panic. *)
Record featureCross := mkCross {
  Calculate : list float → option (list float);
  ExtendNames : gmap Z string → Z → option (gmap Z string * Z)
}.

(** [Regression].  [LastTrained] is kept as an opaque timestamp and
    [Threshold] as a [time.Duration] (an [int64]). *)
Record Regression := mkRegression {
  Names : Describe;
  Data : list ptr;
  CoeffMap : gmap Z float;
  R2 : float;
  Varianceobserved : float;
  VariancePredicted : float;
  Initialised : bool;
  Formula : string;
  Crosses : list featureCross;
  HasRun : bool;
  LastTrained : Z;
  Threshold : Z
}.

Definition set_Names (x : Describe) (r : Regression) : Regression :=
  mkRegression x (Data r) (CoeffMap r) (R2 r) (Varianceobserved r)
    (VariancePredicted r) (Initialised r) (Formula r) (Crosses r) (HasRun r)
    (LastTrained r) (Threshold r).
Definition set_Data (x : list ptr) (r : Regression) : Regression :=
  mkRegression (Names r) x (CoeffMap r) (R2 r) (Varianceobserved r)
    (VariancePredicted r) (Initialised r) (Formula r) (Crosses r) (HasRun r)
    (LastTrained r) (Threshold r).
Definition set_CoeffMap (x : gmap Z float) (r : Regression) : Regression :=
  mkRegression (Names r) (Data r) x (R2 r) (Varianceobserved r)
    (VariancePredicted r) (Initialised r) (Formula r) (Crosses r) (HasRun r)
    (LastTrained r) (Threshold r).
Definition set_R2 (x : float) (r : Regression) : Regression :=
  mkRegression (Names r) (Data r) (CoeffMap r) x (Varianceobserved r)
    (VariancePredicted r) (Initialised r) (Formula r) (Crosses r) (HasRun r)
    (LastTrained r) (Threshold r).
Definition set_Varianceobserved (x : float) (r : Regression) : Regression :=
  mkRegression (Names r) (Data r) (CoeffMap r) (R2 r) x
    (VariancePredicted r) (Initialised r) (Formula r) (Crosses r) (HasRun r)
    (LastTrained r) (Threshold r).
Definition set_VariancePredicted (x : float) (r : Regression) : Regression :=
  mkRegression (Names r) (Data r) (CoeffMap r) (R2 r) (Varianceobserved r)
    x (Initialised r) (Formula r) (Crosses r) (HasRun r)
    (LastTrained r) (Threshold r).
Definition set_Initialised (x : bool) (r : Regression) : Regression :=
  mkRegression (Names r) (Data r) (CoeffMap r) (R2 r) (Varianceobserved r)
    (VariancePredicted r) x (Formula r) (Crosses r) (HasRun r)
    (LastTrained r) (Threshold r).
Definition set_Formula (x : string) (r : Regression) : Regression :=
  mkRegression (Names r) (Data r) (CoeffMap r) (R2 r) (Varianceobserved r)
    (VariancePredicted r) (Initialised r) x (Crosses r) (HasRun r)
    (LastTrained r) (Threshold r).
Definition set_Crosses (x : list featureCross) (r : Regression) : Regression :=
  mkRegression (Names r) (Data r) (CoeffMap r) (R2 r) (Varianceobserved r)
    (VariancePredicted r) (Initialised r) (Formula r) x (HasRun r)
    (LastTrained r) (Threshold r).
Definition set_HasRun (x : bool) (r : Regression) : Regression :=
  mkRegression (Names r) (Data r) (CoeffMap r) (R2 r) (Varianceobserved r)
    (VariancePredicted r) (Initialised r) (Formula r) (Crosses r) x
    (LastTrained r) (Threshold r).
Definition set_Threshold (x : Z) (r : Regression) : Regression :=
  mkRegression (Names r) (Data r) (CoeffMap r) (R2 r) (Varianceobserved r)
    (VariancePredicted r) (Initialised r) (Formula r) (Crosses r) (HasRun r)
    (LastTrained r) x.

(** [new(Regression)]: every field at its zero value. *)
Definition new_Regression : Regression :=
  mkRegression (mkDescribe "" ∅) [] ∅ 0%float 0%float 0%float false "" []
    false 0 0.

(** ** Operations that need no collaborator *)

(** [DataPointWrapper]: allocates a point and returns its address. *)
Definition DataPointWrapper (s : store) (obs : float) (vars : list float)
  : store * ptr :=
  (s ++ [mkDataPoint obs vars 0%float 0%float], length s).

(** [Coeff]. *)
Definition Coeff (r : Regression) (i : Z) : float :=
  if decide (size (CoeffMap r) = 0) then 0%float
  else default 0%float (CoeffMap r !! i).

(** The loop of [Predict] and of [applyCrosses] over the crosses:
    [vars = append(vars, cross.Calculate(vars)...)]. *)
Definition cross_step (cross : featureCross) (vars : list float)
  : option (list float) :=
  extra ← Calculate cross vars; Some (vars ++ extra).

Definition apply_crosses_to (crosses : list featureCross) (vars : list float)
  : option (list float) :=
  for_each crosses cross_step vars.

(** [SetObserved], [GetObserved]. *)
Definition SetObserved (r : Regression) (name : string) : Regression :=
  set_Names (mkDescribe name (Vars (Names r))) r.
Definition GetObserved (r : Regression) : string := Obs (Names r).

(** [SetVar]: the name table is created when it has no entry. *)
Definition SetVar (r : Regression) (i : Z) (name : string) : Regression :=
  let vars :=
    if decide (size (Vars (Names r)) = 0) then ∅ else Vars (Names r) in
  set_Names (mkDescribe (Obs (Names r)) (<[i:=name]> vars)) r.

(** [GetVar]: a missing key reads as the empty string. *)
Definition GetVar (r : Regression) (i : Z) : string :=
  let x := default "" (Vars (Names r) !! i) in
  if decide (x = "") then "X" +:+ Itoa i else x.

(** [AddCross]. *)
Definition AddCross (r : Regression) (cross : featureCross) : Regression :=
  set_Crosses (Crosses r ++ [cross]) r.

(** [Train]: the flag is set when [len(r.Data) > 2]. *)
Definition Train (r : Regression) (d : list ptr) : Regression :=
  let r := set_Data (Data r ++ d) r in
  if decide (2 < length (Data r)) then set_Initialised true r else r.

(** [SetThreshold]. *)
Definition SetThreshold (r : Regression) (thres : Z) : Regression :=
  set_Threshold thres r.

(** [applyCrosses], first loop: every cross, in order, on every point in
    order, through the point's address. A point is only dereferenced inside
    the inner loop. *)
Definition cross_point (point : ptr) (cross : featureCross) (s : store)
  : option store :=
  dp ← s !! point;
  vars ← cross_step cross (Variables dp);
  Some (<[point := set_Variables vars dp]> s).

Definition cross_points (crosses : list featureCross) (points : list ptr)
    (s : store) : option store :=
  for_each points (λ point s, for_each crosses (cross_point point) s) s.

(** [applyCrosses], second loop: the crosses name their variables, the cursor
    advancing by what each reports. *)
Definition extend_step (cross : featureCross) (st : gmap Z string * Z)
  : option (gmap Z string * Z) :=
  '(vars, n) ← ExtendNames cross st.1 st.2;
  Some (vars, wrap64 (st.2 + n)).

(** [applyCrosses]. *)
Definition applyCrosses (s : store) (r : Regression)
  : option (store * Regression) :=
  p0 ← Data r !! 0;
  dp0 ← s !! p0;
  let unusedVariableIndexCursor := Z.of_nat (length (Variables dp0)) in
  s ← cross_points (Crosses r) (Data r) s;
  let vars :=
    if decide (size (Vars (Names r)) = 0) then ∅ else Vars (Names r) in
  st ← for_each (Crosses r) extend_step (vars, unusedVariableIndexCursor);
  Some (s, set_Names (mkDescribe (Obs (Names r)) st.1) r).

(** [len(r.Data[0].Variables)]. *)
Definition first_arity (s : store) (r : Regression) : option nat :=
  p0 ← Data r !! 0;
  dp0 ← s !! p0;
  Some (length (Variables dp0)).

Section Engine.
Context `{Lib : Collaborators}.

(** The package's error values, and an error handed back by the matrix
    package. *)
Inductive error :=
  | ErrNotEnoughData
  | ErrTooManyVars
  | ErrRegressionRun
  | ErrMatrix (e : lib_error).

(** [Predict]: the float and the error of the Go result pair. *)
Definition Predict (s : store) (r : Regression) (vars : list float)
  : option (float * option error) :=
  if negb (Initialised r) then Some (0%float, Some ErrNotEnoughData)
  else
    vars ← apply_crosses_to (Crosses r) vars;
    k ← first_arity s r;
    p ← for_range 1 (k + 1)
          (λ j p, x ← vars !! (j - 1);
                  Some (p + Coeff r (Z.of_nat j) * x)%float)
          (Coeff r 0);
    Some (p, None).

(** [Run], the loop that fills the observation vector and the design
    matrix. *)
Definition fill_cell (dp : DataPoint) (i j : nat) (variables : matrix)
  : option matrix :=
  if decide (j = 0) then Some (mSet variables i 0 1%float)
  else x ← Variables dp !! (j - 1); Some (mSet variables i j x).

Definition fill_point (s : store) (numOfvars i : nat) (p : ptr)
    (m : matrix * matrix) : option (matrix * matrix) :=
  dp ← s !! p;
  let observed := mSet m.1 i 0 (Observed dp) in
  variables ← for_range 0 (numOfvars + 1) (fill_cell dp i) m.2;
  Some (observed, variables).

Definition fill_row (s : store) (r : Regression) (numOfvars i : nat)
    (m : matrix * matrix) : option (matrix * matrix) :=
  p ← Data r !! i; fill_point s numOfvars i p m.

Definition build_design (s : store) (r : Regression)
    (observations numOfvars : nat) : option (matrix * matrix) :=
  for_range 0 observations (fill_row s r numOfvars)
    (Zeros observations 1, Zeros observations (numOfvars + 1)).

(** [Run], back-substitution on [c := make([]float64, n)]. *)
Definition backsub_term (reg : matrix) (i j : nat) (c : list float)
  : option (list float) :=
  ci ← c !! i;
  cj ← c !! j;
  slice_set c i (ci - cj * mGet reg i j)%float.

Definition backsub_row (qty reg : matrix) (n i : nat) (c : list float)
  : option (list float) :=
  c ← slice_set c i (mGet qty i 0);
  c ← for_range (i + 1) n (backsub_term reg i) c;
  ci ← c !! i;
  slice_set c i (ci / mGet reg i i)%float.

Definition backsub (qty reg : matrix) (n : nat) : option (list float) :=
  for_down n (backsub_row qty reg n) (replicate n 0%float).

(** [Run], the loop that stores the coefficients and, when asked, writes the
    formula. *)
Definition output_step (logOutput : bool) (i : nat) (val : float)
    (r : Regression) : option Regression :=
  let r := set_CoeffMap (<[Z.of_nat i := val]> (CoeffMap r)) r in
  Some
    (if logOutput then
       if decide (i = 0)
       then set_Formula ("Predicted = " +:+ fmt_f4 val) r
       else set_Formula
              (Formula r +:+ " + " +:+ GetVar r (Z.of_nat i - 1) +:+ "*"
                 +:+ fmt_f4 val) r
     else r).

Definition output_results (logOutput : bool) (c : list float)
    (r : Regression) : option Regression :=
  for_each_i 0 c (output_step logOutput) (set_CoeffMap ∅ r).

(** [calcPredicted]; the error of [Predict] is dropped, and so is the text
    the function assembles, which [Run] does not use. *)
Definition predict_at (r : Regression) (p : ptr) (s : store)
  : option store :=
  dp ← s !! p;
  res ← Predict s r (Variables dp);
  let dp := set_Predicted res.1 dp in
  Some (<[p := set_Error (Predicted dp - Observed dp)%float dp]> s).

Definition predict_point (r : Regression) (i : nat) (s : store)
  : option store :=
  p ← Data r !! i; predict_at r p s.

Definition calcPredicted (s : store) (r : Regression) : option store :=
  for_range 0 (length (Data r)) (predict_point r) s.

(** [calcVariance]. *)
Definition total_at (s : store) (p : ptr) (t : float * float)
  : option (float * float) :=
  dp ← s !! p;
  Some (t.1 + Observed dp, t.2 + Predicted dp)%float.

Definition total_step (s : store) (r : Regression) (i : nat)
    (t : float * float) : option (float * float) :=
  p ← Data r !! i; total_at s p t.

Definition var_at (s : store) (obaverage praverage : float) (p : ptr)
    (t : float * float) : option (float * float) :=
  dp ← s !! p;
  Some (t.1 + math_Pow (Observed dp - obaverage) 2,
        t.2 + math_Pow (Predicted dp - praverage) 2)%float.

Definition var_step (s : store) (r : Regression) (obaverage praverage : float)
    (i : nat) (t : float * float) : option (float * float) :=
  p ← Data r !! i; var_at s obaverage praverage p t.

Definition calcVariance (s : store) (r : Regression) : option Regression :=
  let observations := length (Data r) in
  tot ← for_range 0 observations (total_step s r) (0, 0)%float;
  let obaverage := (tot.1 / float64_of_len observations)%float in
  let praverage := (tot.2 / float64_of_len observations)%float in
  var ← for_range 0 observations (var_step s r obaverage praverage)
          (0, 0)%float;
  let r := set_Varianceobserved (var.1 / float64_of_len observations) r in
  Some (set_VariancePredicted (var.2 / float64_of_len observations) r).

(** [calcR2]. *)
Definition calcR2 (r : Regression) : Regression :=
  set_R2 (VariancePredicted r / Varianceobserved r)%float r.

(** [Run]: the store and the model as the call leaves them, and the error it
    returns. *)
Definition Run (s : store) (r : Regression) (logOutput : bool)
  : option (store * Regression * option error) :=
  if negb (Initialised r) then Some (s, r, Some ErrNotEnoughData)
  else if HasRun r then Some (s, r, Some ErrRegressionRun)
  else
    '(s, r) ← applyCrosses s r;
    let r := set_HasRun true r in
    let observations := length (Data r) in
    numOfvars ← first_arity s r;
    if decide (observations < numOfvars + 1)
    then Some (s, r, Some ErrTooManyVars)
    else
      m ← build_design s r observations numOfvars;
      let n := Cols m.2 in
      let qr := QR m.2 in
      let res := Times (Transpose qr.1) m.1 in
      match res.2 with
      | Some e => Some (s, r, Some (ErrMatrix e))
      | None =>
          c ← backsub res.1 qr.2 n;
          r ← output_results logOutput c r;
          s ← calcPredicted s r;
          r ← calcVariance s r;
          let r := calcR2 r in
          Some (s, set_HasRun true r, None)
      end.

End Engine.

(** ** Construction from a table *)

(** [r[lo:]]: a panic when [lo] is past the end. *)
Definition slice_from {A} (l : list A) (lo : nat) : option (list A) :=
  if decide (lo ≤ length l) then Some (drop lo l) else None.

(** [r[:hi]]: only reached after [r[hi]] was read, so inside the slice. *)
Definition slice_to {A} (l : list A) (hi : Z) : option (list A) :=
  if decide (0 ≤ hi ≤ Z.of_nat (length l))%Z
  then Some (take (Z.to_nat hi) l) else None.

(** [retVal = append(retVal, DataPointWrapper(obs, vars))]. *)
Definition push_point (obs : float) (vars : list float)
    (st : list DataPoint * list ptr) : list DataPoint * list ptr :=
  let res := DataPointWrapper st.1 obs vars in (res.1, st.2 ++ [res.2]).

(** [perverseMakeDataPoints]. *)
Definition others_step (obsIndex : Z) (i : nat) (c : float)
    (others : list float) : option (list float) :=
  if decide (Z.of_nat i = obsIndex) then Some others else Some (others ++ [c]).

Definition perverse_row (obsIndex : Z) (r : list float)
    (st : list DataPoint * list ptr) : option (list DataPoint * list ptr) :=
  obs ← index r obsIndex;
  others ← for_each_i 0 r (others_step obsIndex) [];
  Some (push_point obs others st).

Definition perverseMakeDataPoints (s : store) (a : list (list float))
    (obsIndex : Z) : option (store * list ptr) :=
  for_each a (perverse_row obsIndex) (s, []).

(** [MakeDataPoints].  The first test short-circuits: [a[0]] is read only
    when [obsIndex] is not 0. *)
Definition first_row (r : list float) (st : list DataPoint * list ptr)
  : option (list DataPoint * list ptr) :=
  obs ← r !! 0;
  vars ← slice_from r 1;
  Some (push_point obs vars st).

Definition last_row (last : Z) (r : list float)
    (st : list DataPoint * list ptr) : option (list DataPoint * list ptr) :=
  obs ← index r last;
  vars ← slice_to r last;
  Some (push_point obs vars st).

Definition MakeDataPoints (s : store) (a : list (list float)) (obsIndex : Z)
  : option (store * list ptr) :=
  perverse ←
    (if decide (obsIndex = 0)%Z then Some false
     else a0 ← a !! 0;
          Some (bool_decide (obsIndex ≠ Z.of_nat (length a0) - 1)%Z));
  if (perverse : bool) then perverseMakeDataPoints s a obsIndex
  else if decide (obsIndex = 0)%Z then for_each a first_row (s, [])
  else
    a0 ← a !! 0;
    let last := (Z.of_nat (length a0) - 1)%Z in
    for_each a (last_row last) (s, []).

(** ** An executable stand-in for the collaborators

    Dense matrices as index functions, QR by Gram-Schmidt orthogonalisation,
    integer powers by repeated multiplication. It serves to run the model on
    concrete inputs; no theorem about the engine depends on it. *)
Module RefLib.

Record fmatrix := mkF {
  frows : nat;
  fcols : nat;
  fget : nat → nat → float
}.

Definition fzeros (r c : nat) : fmatrix := mkF r c (λ _ _, 0%float).

Definition fset (m : fmatrix) (i j : nat) (v : float) : fmatrix :=
  mkF (frows m) (fcols m)
    (λ i' j', if decide (i = i' ∧ j = j') then v else fget m i' j').

Definition column (m : fmatrix) (j : nat) : list float :=
  map (λ i, fget m i j) (seq 0 (frows m)).

Definition dot (u v : list float) : float :=
  fold_left (λ acc xy, acc + xy.1 * xy.2)%float (zip u v) 0%float.

Definition axpy (c : float) (q v : list float) : list float :=
  zip_with (λ vi qi, vi - c * qi)%float v q.

(** One Gram-Schmidt step: the columns of Q so far, the columns of R so far,
    and the next column of the matrix. *)
Definition gs_step (st : list (list float) * list (list float))
    (a : list float) : list (list float) * list (list float) :=
  let coeffs := map (λ q, dot q a) st.1 in
  let v := fold_left (λ v qc, axpy qc.2 qc.1 v) (zip st.1 coeffs) a in
  let nrm := sqrt (dot v v) in
  (st.1 ++ [map (λ x, x / nrm)%float v], st.2 ++ [coeffs ++ [nrm]]).

Definition of_columns (r c : nat) (cs : list (list float)) : fmatrix :=
  mkF r c (λ i j, default 0%float (cs !! j ≫= λ col, col !! i)).

Definition fqr (m : fmatrix) : fmatrix * fmatrix :=
  let st :=
    fold_left gs_step (map (column m) (seq 0 (fcols m))) ([], []) in
  (of_columns (frows m) (fcols m) st.1, of_columns (fcols m) (fcols m) st.2).

Definition ftranspose (m : fmatrix) : fmatrix :=
  mkF (fcols m) (frows m) (λ i j, fget m j i).

Definition ftimes (a b : fmatrix) : fmatrix * option string :=
  if decide (fcols a = frows b) then
    (mkF (frows a) (fcols b)
       (λ i j, fold_left (λ acc k, acc + fget a i k * fget b k j)%float
                 (seq 0 (fcols a)) 0%float), None)
  else (fzeros 0 0, Some "dimension mismatch").

Fixpoint pow_nat (x : float) (n : nat) : float :=
  match n with
  | 0 => 1%float
  | S n' => (x * pow_nat x n')%float
  end.

(** [x^y] for an exponent [y] among 0, 1, ..., 64; NaN otherwise. *)
Definition fpow (x y : float) : float :=
  match list_find (λ n, (float64_of_len n =? y)%float = true) (seq 0 65) with
  | Some (n, _) => pow_nat x n
  | None => nan
  end.

#[export] Instance lib : Collaborators := {|
  matrix := fmatrix;
  lib_error := string;
  Zeros := fzeros;
  mSet := fset;
  mGet := fget;
  Rows := frows;
  Cols := fcols;
  QR := fqr;
  Transpose := ftranspose;
  Times := ftimes;
  math_Pow := fpow;
  fmt_f4 := λ _, "#.####"
|}.

End RefLib.

(** Modelled from the spec: the power cross of the package's feature-cross
    file, which is not part of the sources at hand. [Calculate] returns
    [[variables[i]^p]]; [ExtendNames] names the one variable it introduces
    after the source variable, parenthesized and with a caret-exponent
    suffix, at the first free index, and reports one slot. *)
Definition PowCross `{Collaborators} (i p : nat) : featureCross :=
  mkCross
    (λ vars, x ← vars !! i; Some [math_Pow x (float64_of_len p)])
    (λ names next,
       let src := default "" (names !! Z.of_nat i) in
       let src := if decide (src = "") then "X" +:+ Itoa (Z.of_nat i) else src in
       Some (<[next := "(" +:+ src +:+ ")^" +:+ Itoa (Z.of_nat p)]> names, 1%Z)).

(** ** Traces of calls

    A client drives one model through the package's operations; the store is
    shared with it, so it may also allocate points in between. *)
Section Clients.
Context `{Lib : Collaborators}.

Inductive op :=
  | OpNew (obs : float) (vars : list float)
  | OpTrain (d : list ptr)
  | OpAddCross (cross : featureCross)
  | OpPredict (vars : list float)
  | OpRun (logOutput : bool)
  | OpSetVar (i : Z) (name : string)
  | OpSetObserved (name : string)
  | OpSetThreshold (thres : Z).

(** One call; a panic ends the trace. *)
Definition exec_op (o : op) (st : list DataPoint * Regression)
  : option (list DataPoint * Regression) :=
  match o with
  | OpNew obs vars => Some ((DataPointWrapper st.1 obs vars).1, st.2)
  | OpTrain d => Some (st.1, Train st.2 d)
  | OpAddCross cross => Some (st.1, AddCross st.2 cross)
  | OpPredict vars => _ ← Predict st.1 st.2 vars; Some st
  | OpRun logOutput => res ← Run st.1 st.2 logOutput; Some res.1
  | OpSetVar i name => Some (st.1, SetVar st.2 i name)
  | OpSetObserved name => Some (st.1, SetObserved st.2 name)
  | OpSetThreshold thres => Some (st.1, SetThreshold st.2 thres)
  end.

Definition exec_ops (ops : list op) (st : list DataPoint * Regression)
  : option (list DataPoint * Regression) :=
  for_each ops exec_op st.

(** The ways a call of [Run] returns, one constructor per [return]. *)
Inductive run_path (s : store) (r : Regression) (logOutput : bool)
  : store → Regression → option error → Prop :=
  | path_not_enough :
      Initialised r = false →
      run_path s r logOutput s r (Some ErrNotEnoughData)
  | path_already :
      Initialised r = true → HasRun r = true →
      run_path s r logOutput s r (Some ErrRegressionRun)
  | path_too_many s1 r1 k :
      Initialised r = true → HasRun r = false →
      applyCrosses s r = Some (s1, r1) →
      first_arity s1 r1 = Some k →
      length (Data r1) < k + 1 →
      run_path s r logOutput s1 (set_HasRun true r1) (Some ErrTooManyVars)
  | path_matrix s1 r1 k m e :
      Initialised r = true → HasRun r = false →
      applyCrosses s r = Some (s1, r1) →
      first_arity s1 r1 = Some k →
      k + 1 ≤ length (Data r1) →
      build_design s1 r1 (length (Data r1)) k = Some m →
      (Times (Transpose (QR m.2).1) m.1).2 = Some e →
      run_path s r logOutput s1 (set_HasRun true r1) (Some (ErrMatrix e))
  | path_fit s1 r1 k m c r2 s2 r3 :
      Initialised r = true → HasRun r = false →
      applyCrosses s r = Some (s1, r1) →
      first_arity s1 r1 = Some k →
      k + 1 ≤ length (Data r1) →
      build_design s1 r1 (length (Data r1)) k = Some m →
      (Times (Transpose (QR m.2).1) m.1).2 = None →
      backsub (Times (Transpose (QR m.2).1) m.1).1 (QR m.2).2 (Cols m.2)
        = Some c →
      output_results logOutput c (set_HasRun true r1) = Some r2 →
      calcPredicted s1 r2 = Some s2 →
      calcVariance s2 r2 = Some r3 →
      run_path s r logOutput s2 (set_HasRun true (calcR2 r3)) None.

End Clients.

(** ** The specification's formulas

    Sums are accumulated from the left, in index order, each operation
    rounded. *)

(** Intercept plus the sum over [i = 1 .. k] of
    [coefficient[i] * variable[i-1]]. *)
Definition prediction_sum (r : Regression) (k : nat) (vars : list float)
  : float :=
  fold_left
    (λ p i, (p + Coeff r (Z.of_nat i) * default 0 (vars !! (i - 1)%nat))%float)
    (seq 1 k) (Coeff r 0).

(** The point a table row stands for: the entry of the observation column,
    and all other entries in their original order. *)
Definition row_point (obsIndex : nat) (row : list float) : DataPoint :=
  mkDataPoint (default 0%float (row !! obsIndex)) (delete obsIndex row)
    0%float 0%float.

(** The points a model refers to, in the order of its data slice; [None]
    when some address has no object behind it. *)
Definition points_of (s : store) (r : Regression) : option (list DataPoint) :=
  mapM (λ p, s !! p) (Data r).

(** What the fit reads of a point: its observed value and its variables. *)
Definition inputs_of (s : store) : list (float * list float) :=
  (λ dp, (Observed dp, Variables dp)) <$> s.

(** Sum, mean and population variance (the squared deviations from the
    mean, summed and divided by [N]). *)
Definition fsum (l : list float) : float := fold_left PrimFloat.add l 0%float.

Definition fmean (l : list float) : float :=
  (fsum l / float64_of_len (length l))%float.

Definition population_variance `{Collaborators} (l : list float) : float :=
  (fsum ((λ x, math_Pow (x - fmean l) 2) <$> l)
     / float64_of_len (length l))%float.

(** The value a slice holds at an index, 0 outside. *)
Definition at_index (c : list float) (j : nat) : float :=
  default 0%float (c !! j).

Section Formulas.
Context `{Lib : Collaborators}.

(** [x] minus the terms [c j * R[i,j]] for [j = i+1 .. n-1], taken off one
    after the other. *)
Definition minus_terms (c : nat → float) (R : matrix) (n i : nat) (x : float)
  : float :=
  fold_left (λ acc j, (acc - c j * mGet R i j)%float) (seq (S i) (n - S i)) x.

(** Row [i] of the triangular system is solved by [c]. *)
Definition row_solved (qty R : matrix) (n : nat) (c : nat → float) (i : nat)
  : Prop :=
  c i = (minus_terms c R n i (mGet qty i 0) / mGet R i i)%float.

(** The point at address [p] carries the prediction for its own variables
    and the residual, predicted minus observed. *)
Definition fitted (r : Regression) (s : store) (p : ptr) : Prop :=
  ∃ dp res, s !! p = Some dp ∧
    Predict s r (Variables dp) = Some res ∧
    Predicted dp = res.1 ∧
    Error dp = (res.1 - Observed dp)%float.

(** The observation vector of a list of points. *)
Definition is_observation_vector (pts : list DataPoint) (m : matrix) : Prop :=
  Rows m = length pts ∧ Cols m = 1 ∧
  ∀ i dp, pts !! i = Some dp → mGet m i 0 = Observed dp.

(** The design matrix of a list of points with [k] variables: a row per
    point, a leading column of ones, then a column per variable. *)
Definition is_design_matrix (pts : list DataPoint) (k : nat) (m : matrix)
  : Prop :=
  Rows m = length pts ∧ Cols m = k + 1 ∧
  ∀ i dp, pts !! i = Some dp →
    mGet m i 0 = 1%float ∧
    ∀ j, j < k → Variables dp !! j = Some (mGet m i (S j)).

End Formulas.

(** ** Sample inputs

    Small stores and models on which the statements below are run. *)

(** Three points of arity two; no fit can take a third variable. *)
Definition tight_store : list DataPoint :=
  [ mkDataPoint 1 [1; 2]%float 0 0;
    mkDataPoint 2 [2; 3]%float 0 0;
    mkDataPoint 3 [3; 5]%float 0 0 ]%float.

Definition tight_model : Regression := Train new_Regression [0; 1; 2].

(** Five samples of [y = x*x + x], to be fitted with a square cross. *)
Definition square_store : list DataPoint :=
  [ mkDataPoint 6 [2]%float 0 0;
    mkDataPoint 20 [4]%float 0 0;
    mkDataPoint 30 [5]%float 0 0;
    mkDataPoint 72 [8]%float 0 0;
    mkDataPoint 156 [12]%float 0 0 ]%float.

Definition square_model `{Collaborators} : Regression :=
  AddCross (Train new_Regression [0; 1; 2; 3; 4]) (PowCross 0 2).

(** Three points of arity three: as many variables as points. *)
Definition wide_store : list DataPoint :=
  [ mkDataPoint 1 [1; 2; 4]%float 0 0;
    mkDataPoint 2 [2; 3; 9]%float 0 0;
    mkDataPoint 3 [3; 5; 7]%float 0 0 ]%float.

(** A table of three rows and four columns. *)
Definition sample_table : list (list float) :=
  [ [1; 2; 3; 4]; [2; 2; 3; 4]; [3; 2; 3; 4] ]%float.

(** The square samples once the cross has been applied. *)
Definition square_crossed_store : list DataPoint :=
  [ mkDataPoint 6 [2; 4]%float 0 0;
    mkDataPoint 20 [4; 16]%float 0 0;
    mkDataPoint 30 [5; 25]%float 0 0;
    mkDataPoint 72 [8; 64]%float 0 0;
    mkDataPoint 156 [12; 144]%float 0 0 ]%float.

Definition square_crossed_model `{Collaborators} : Regression :=
  set_Names (mkDescribe "" {[ 1%Z := "(X0)^2" ]}) square_model.

(** The package's cross test: the samples of [y = x*x + x], crosses for
    the powers 2 and 7, a fit, and the prediction at 6, which is to be 42. *)
Definition cross_test (lib : Collaborators) : bool :=
  let r := AddCross square_model (PowCross 0 7) in
  match Run square_store r false with
  | Some (s, r, None) =>
      match Predict s r [6%float] with
      | Some (y, None) => (41.9990234375 <? y)%float && (y <? 42.0009765625)%float
      | _ => false
      end
  | _ => false
  end.

(** Three points, the last one without a variable. *)
Definition ragged_store : list DataPoint :=
  [ mkDataPoint 1 [1]%float 0 0;
    mkDataPoint 2 [2]%float 0 0;
    mkDataPoint 3 [] 0 0 ]%float.

(** A table whose second row is longer than the first. *)
Definition ragged_table : list (list float) :=
  [ [1; 2; 3]; [4; 5; 6; 7] ]%float.

(** A cross that derives the constant 1 and names nothing. *)
Definition unit_cross : featureCross :=
  mkCross (λ _, Some [1%float]) (λ names _, Some (names, 1%Z)).

(** ** Relations between stores

    [appended s s']: the same addresses; every point of [s] is in [s'] with
    its variable vector extended at the end and nothing else changed. *)
Definition appended (s s' : store) : Prop :=
  length s' = length s ∧
  ∀ p dp, s !! p = Some dp →
    ∃ extra, s' !! p = Some (set_Variables (Variables dp ++ extra) dp).

(** [grown s s']: the same addresses; every point of [s] is in [s'] with
    the observed value it had and its variable vector extended at the end
    (the predicted value and the error may differ). *)
Definition grown (s s' : store) : Prop :=
  length s' = length s ∧
  ∀ p dp, s !! p = Some dp →
    ∃ dp' extra, s' !! p = Some dp' ∧
      Observed dp' = Observed dp ∧
      Variables dp' = Variables dp ++ extra.

(** * Properties *)

(** ** Loops *)

Section Loops.
Context {St : Type}.

Lemma for_each_inv {A} (P : St → Prop) (body : A → St → option St) l s s' :
  (∀ x t t', x ∈ l → P t → body x t = Some t' → P t') →
  P s → for_each l body s = Some s' → P s'.
Proof.
  revert s. induction l as [|x l IH]; intros s Hstep Hs Hrun; simpl in Hrun.
  - by simplify_eq.
  - destruct (body x s) as [t|] eqn:Hb; simpl in Hrun; [|done].
    apply (IH t); [|by eapply Hstep; [left| |]|done].
    intros y u u' Hy. apply Hstep. by right.
Qed.

Lemma for_each_i_inv {A} (P : St → Prop) (body : nat → A → St → option St)
    i l s s' :
  (∀ j x t t', P t → body j x t = Some t' → P t') →
  P s → for_each_i i l body s = Some s' → P s'.
Proof.
  intros Hstep. revert i s.
  induction l as [|x l IH]; intros i s Hs Hrun; simpl in Hrun.
  - by simplify_eq.
  - destruct (body i x s) as [t|] eqn:Hb; simpl in Hrun; [|done].
    eapply IH; [|done]. by eapply Hstep.
Qed.

Lemma for_up_inv (P : nat → St → Prop) (body : nat → St → option St)
    n lo s s' :
  (∀ i t t', lo ≤ i < lo + n → P i t → body i t = Some t' → P (S i) t') →
  P lo s → for_up n lo body s = Some s' → P (lo + n) s'.
Proof.
  revert lo s. induction n as [|n IH]; intros lo s Hstep Hs Hrun;
    simpl in Hrun.
  - simplify_eq. by rewrite Nat.add_0_r.
  - destruct (body lo s) as [t|] eqn:Hb; simpl in Hrun; [|done].
    replace (lo + S n) with (S lo + n) by lia.
    apply (IH (S lo) t); [|eapply Hstep; [lia|done..]|done].
    intros i u u' Hi. apply Hstep. lia.
Qed.

Lemma for_range_inv (P : nat → St → Prop) (body : nat → St → option St)
    lo hi s s' :
  lo ≤ hi →
  (∀ i t t', lo ≤ i < hi → P i t → body i t = Some t' → P (S i) t') →
  P lo s → for_range lo hi body s = Some s' → P hi s'.
Proof.
  intros Hle Hstep Hs Hrun. unfold for_range in Hrun.
  replace hi with (lo + (hi - lo)) by lia.
  eapply for_up_inv; [|done..].
  intros i t t' Hi. apply Hstep. lia.
Qed.

Lemma for_up_total (P : nat → St → Prop) (body : nat → St → option St)
    n lo s :
  (∀ i t, lo ≤ i < lo + n → P i t → ∃ t', body i t = Some t' ∧ P (S i) t') →
  P lo s → ∃ s', for_up n lo body s = Some s' ∧ P (lo + n) s'.
Proof.
  revert lo s. induction n as [|n IH]; intros lo s Hstep Hs; simpl.
  - exists s. by rewrite Nat.add_0_r.
  - destruct (Hstep lo s) as (t & -> & Ht); [lia|done|]. simpl.
    replace (lo + S n) with (S lo + n) by lia.
    apply IH; [|done]. intros i u Hi. apply Hstep. lia.
Qed.

Lemma for_range_total (P : nat → St → Prop) (body : nat → St → option St)
    lo hi s :
  lo ≤ hi →
  (∀ i t, lo ≤ i < hi → P i t → ∃ t', body i t = Some t' ∧ P (S i) t') →
  P lo s → ∃ s', for_range lo hi body s = Some s' ∧ P hi s'.
Proof.
  intros Hle Hstep Hs. unfold for_range.
  destruct (for_up_total P body (hi - lo) lo s) as (s' & Hrun & Hs');
    [|done|].
  - intros i t Hi. apply Hstep. lia.
  - exists s'. split; [done|]. by replace hi with (lo + (hi - lo)) by lia.
Qed.

Lemma for_down_inv (P : nat → St → Prop) (body : nat → St → option St)
    n s s' :
  (∀ i t t', i < n → P (S i) t → body i t = Some t' → P i t') →
  P n s → for_down n body s = Some s' → P 0 s'.
Proof.
  revert s. induction n as [|n IH]; intros s Hstep Hs Hrun; simpl in Hrun.
  - by simplify_eq.
  - destruct (body n s) as [t|] eqn:Hb; simpl in Hrun; [|done].
    apply (IH t); [|eapply Hstep; [lia|done..]|done].
    intros i u u' Hi. apply Hstep. lia.
Qed.

Lemma for_down_total (P : nat → St → Prop) (body : nat → St → option St)
    n s :
  (∀ i t, i < n → P (S i) t → ∃ t', body i t = Some t' ∧ P i t') →
  P n s → ∃ s', for_down n body s = Some s' ∧ P 0 s'.
Proof.
  revert s. induction n as [|n IH]; intros s Hstep Hs; simpl.
  - by exists s.
  - destruct (Hstep n s) as (t & -> & Ht); [lia|done|]. simpl.
    apply IH; [|done]. intros i u Hi. apply Hstep. lia.
Qed.

End Loops.

(** ** The fields each step leaves alone *)

Section Frames.
Context `{Lib : Collaborators}.

Lemma applyCrosses_model s r s1 r1 :
  applyCrosses s r = Some (s1, r1) →
  ∃ names, r1 = set_Names names r.
Proof.
  unfold applyCrosses. intros H.
  repeat (apply bind_Some in H as (? & _ & H)). simplify_eq. eauto.
Qed.

Lemma output_step_model logOutput i val r r' :
  output_step logOutput i val r = Some r' →
  ∃ cm f, r' = set_Formula f (set_CoeffMap cm r).
Proof.
  unfold output_step. intros H. simplify_eq.
  destruct logOutput; [destruct (decide (i = 0))|]; eexists _, _;
    reflexivity.
Qed.

Lemma output_results_model logOutput c r r' :
  output_results logOutput c r = Some r' →
  ∃ cm f, r' = set_Formula f (set_CoeffMap cm r).
Proof.
  unfold output_results. intros H.
  eapply (for_each_i_inv (λ t, ∃ cm f, t = set_Formula f (set_CoeffMap cm r)))
    in H; [done| |].
  - intros j x t t' (cm & f & ->) Hstep.
    apply output_step_model in Hstep as (cm' & f' & ->). by eexists _, _.
  - exists ∅, (Formula r). by destruct r.
Qed.

Lemma calcVariance_model s r r' :
  calcVariance s r = Some r' →
  ∃ vo vp, r' = set_VariancePredicted vp (set_Varianceobserved vo r).
Proof.
  unfold calcVariance. intros H.
  repeat (apply bind_Some in H as (? & _ & H)). simplify_eq. eauto.
Qed.

(** [Run] returns along one of its paths, and only so. *)
Lemma Run_paths s r logOutput s' r' e :
  Run s r logOutput = Some (s', r', e) ↔ run_path s r logOutput s' r' e.
Proof.
  split.
  - unfold Run. intros H.
    destruct (Initialised r) eqn:Hi; simpl in H;
      [|simplify_eq; by constructor].
    destruct (HasRun r) eqn:Hh; [simplify_eq; by constructor|].
    apply bind_Some in H as ([s1 r1] & Hc & H).
    apply bind_Some in H as (k & Hk & H).
    destruct (decide _) as [Hlt|Hge] in H.
    { simplify_eq. by eapply path_too_many. }
    apply bind_Some in H as (m & Hm & H).
    destruct (Times _ _).2 as [le|] eqn:Ht in H.
    { simplify_eq. eapply path_matrix; eauto. simpl in Hge. lia. }
    apply bind_Some in H as (c & Hb & H).
    apply bind_Some in H as (r2 & Ho & H).
    apply bind_Some in H as (s2 & Hp & H).
    apply bind_Some in H as (r3 & Hv & H).
    simplify_eq. eapply path_fit; eauto. simpl in Hge. lia.
  - intros H. unfold Run.
    destruct H as [Hi|Hi Hh|s1 r1 k Hi Hh Hc Hk Hlt
                  |s1 r1 k m le Hi Hh Hc Hk Hge Hm Ht
                  |s1 r1 k m c r2 s2 r3 Hi Hh Hc Hk Hge Hm Ht Hb Ho Hp Hv];
      rewrite Hi; simpl; [done|rewrite Hh..]; [done|rewrite Hc; simpl..].
    + change (first_arity s1 (set_HasRun true r1)) with (first_arity s1 r1).
      rewrite Hk. simpl. by rewrite decide_True.
    + change (first_arity s1 (set_HasRun true r1)) with (first_arity s1 r1).
      rewrite Hk. simpl. rewrite decide_False by lia.
      change (build_design s1 (set_HasRun true r1)) with (build_design s1 r1).
      rewrite Hm. simpl. by rewrite Ht.
    + change (first_arity s1 (set_HasRun true r1)) with (first_arity s1 r1).
      rewrite Hk. simpl. rewrite decide_False by lia.
      change (build_design s1 (set_HasRun true r1)) with (build_design s1 r1).
      rewrite Hm. simpl. rewrite Ht, Hb. simpl. rewrite Ho. simpl.
      rewrite Hp. simpl. by rewrite Hv.
Qed.

(** Whatever path [Run] takes, the data slice, the crosses and the
    initialised flag are those of the model it was called on. *)
Lemma run_path_frame s r logOutput s' r' e :
  run_path s r logOutput s' r' e →
  Data r' = Data r ∧ Crosses r' = Crosses r ∧
  Initialised r' = Initialised r.
Proof.
  intros [| | ????? Hc | ??????? Hc
         | ?????????? Hc ????? Ho ? Hv]; try done;
    apply applyCrosses_model in Hc as (nm & ->); try done.
  apply output_results_model in Ho as (cm & f & ->).
  by apply calcVariance_model in Hv as (vo & vp & ->).
Qed.

(** Past the first test, [Run] leaves the flag set. *)
Lemma run_path_HasRun s r logOutput s' r' e :
  run_path s r logOutput s' r' e →
  Initialised r = true → HasRun r' = true.
Proof. intros [Hi| | | |] Hinit; [congruence|done..]. Qed.

End Frames.

(** ** The run-once gate and the initialised flag *)

Section Gates.
Context `{Lib : Collaborators}.

Lemma Run_gated s r logOutput :
  Initialised r = true → HasRun r = true →
  Run s r logOutput = Some (s, r, Some ErrRegressionRun).
Proof. intros Hi Hh. apply Run_paths. by constructor. Qed.

Lemma Train_flags r d :
  HasRun (Train r d) = HasRun r ∧
  (Initialised r = true → Initialised (Train r d) = true).
Proof. unfold Train. by case_decide. Qed.

(** No operation of the package clears either flag once both are set. *)
Lemma exec_op_gate o st st' :
  exec_op o st = Some st' →
  Initialised st.2 = true ∧ HasRun st.2 = true →
  Initialised st'.2 = true ∧ HasRun st'.2 = true.
Proof.
  destruct st as [s r]. intros Hop [Hi Hh]. simpl in *.
  destruct o; simpl in Hop.
  all: try (injection Hop as <-; simpl; done).
  - injection Hop as <-. simpl.
    destruct (Train_flags r d) as [-> Hinit]. auto.
  - apply bind_Some in Hop as (? & _ & Hop). injection Hop as <-. done.
  - rewrite Run_gated in Hop by done. simpl in Hop.
    injection Hop as <-. done.
Qed.

Lemma exec_ops_gate ops st st' :
  exec_ops ops st = Some st' →
  Initialised st.2 = true ∧ HasRun st.2 = true →
  Initialised st'.2 = true ∧ HasRun st'.2 = true.
Proof.
  intros Hrun Hst.
  eapply (for_each_inv (λ t, Initialised t.2 = true ∧ HasRun t.2 = true));
    [|done..].
  intros o t t' _ Ht Hop. by eapply exec_op_gate.
Qed.

(** A call of [Run] on an initialised model returns with both flags set. *)
Lemma Run_sets_gate s r logOutput s1 r1 e1 :
  Initialised r = true →
  Run s r logOutput = Some (s1, r1, e1) →
  Initialised r1 = true ∧ HasRun r1 = true.
Proof.
  intros Hinit Hrun. apply Run_paths in Hrun.
  split; [|by eapply run_path_HasRun].
  apply run_path_frame in Hrun as (_ & _ & ->). done.
Qed.

(** C1, as the code has it: on a model that is initialised, a call of [Run]
    that returns (whatever it returns) leaves the model such that the next
    call returns the already-run error and changes neither the store nor the
    model; [HasRun] stays set through any further calls of [Train],
    [AddCross], [Predict], [Run] and the setters, so every later [Run] fails
    the same way. *)
Theorem Run_second_call_already_run s r logOutput s1 r1 e1
    (Hinit : Initialised r = true)
    (Hrun : Run s r logOutput = Some (s1, r1, e1)) :
  (∀ lo, Run s1 r1 lo = Some (s1, r1, Some ErrRegressionRun)) ∧
  (∀ ops s2 r2,
     exec_ops ops (s1, r1) = Some (s2, r2) →
     HasRun r2 = true ∧
     ∀ lo, Run s2 r2 lo = Some (s2, r2, Some ErrRegressionRun)).
Proof.
  destruct (Run_sets_gate _ _ _ _ _ _ Hinit Hrun) as [Hi1 Hh1].
  split; [intros lo; by apply Run_gated|].
  intros ops s2 r2 Hops.
  apply exec_ops_gate in Hops as [Hi2 Hh2]; [|done].
  split; [done|]. intros lo. by apply Run_gated.
Qed.

(** C2: [Run] on a model that is not initialised returns the
    not-enough-data error and leaves store and model as they were; [Train]
    appends its points whatever the threshold is and sets the flag exactly
    when the slice has reached three points; a model driven from
    [new(Regression)] by the package's operations is initialised if and only
    if it holds at least three points. *)
Theorem Train_sets_initialised_at_three :
  (∀ s r logOutput,
     Initialised r = false →
     Run s r logOutput = Some (s, r, Some ErrNotEnoughData)) ∧
  (∀ r d,
     Train r d =
       set_Initialised
         (Initialised r || bool_decide (3 ≤ length (Data r ++ d)))
         (set_Data (Data r ++ d) r)) ∧
  (∀ r d thres,
     Train (SetThreshold r thres) d = SetThreshold (Train r d) thres) ∧
  (∀ ops s s' r,
     exec_ops ops (s, new_Regression) = Some (s', r) →
     Initialised r = true ↔ 3 ≤ length (Data r)).
Proof.
  split_and!.
  - intros s r lo Hi. apply Run_paths. by constructor.
  - intros r d. unfold Train. simpl.
    case_decide as Hlen.
    + rewrite bool_decide_eq_true_2 by lia. by rewrite orb_true_r.
    + rewrite bool_decide_eq_false_2 by lia. rewrite orb_false_r.
      by destruct r.
  - intros r d thres. unfold Train, SetThreshold. simpl. by case_decide.
  - intros ops s s' r Hops.
    eapply (for_each_inv
              (λ t, Initialised t.2 = true ↔ 3 ≤ length (Data t.2)))
      in Hops; [done| |simpl; split; [done|lia]].
    intros o [t m] [t' m'] _ Hinv Hop. simpl in *.
    destruct o; simpl in Hop.
    all: try (injection Hop as <- <-; simpl; done).
    + injection Hop as <- <-. unfold Train. simpl.
      case_decide as Hlen; simpl in *; [split; [lia|done]|].
      split; [|lia]. intros Hm. apply Hinv in Hm.
      rewrite length_app in Hlen. lia.
    + apply bind_Some in Hop as (? & _ & Hop). by injection Hop as <- <-.
    + apply bind_Some in Hop as ([[s1 r1] e1] & Hrun & Hop).
      injection Hop as <- <-.
      apply Run_paths, run_path_frame in Hrun as (-> & _ & ->). done.
Qed.

End Gates.

(** ** Crosses are applied before the size test *)

Section CrossesFirst.
Context `{Lib : Collaborators}.

(** The inner loop of [applyCrosses] on one point: with no cross the point
    is not even read; otherwise its vector is extended by every cross in
    turn. *)
Lemma cross_point_loop crosses p (s s' : list DataPoint) :
  for_each crosses (cross_point p) s = Some s' →
  (crosses = [] ∧ s' = s) ∨
  ∃ dp vars, s !! p = Some dp ∧
    apply_crosses_to crosses (Variables dp) = Some vars ∧
    s' = <[p := set_Variables vars dp]> s.
Proof.
  revert s. induction crosses as [|c cs IH]; intros s H; simpl in H.
  { left. by simplify_eq. }
  right. apply bind_Some in H as (t & Hc & H).
  unfold cross_point in Hc.
  apply bind_Some in Hc as (dp & Hdp & Hc).
  apply bind_Some in Hc as (v1 & Hv1 & Hc). injection Hc as <-.
  exists dp. unfold apply_crosses_to. simpl. rewrite Hv1. simpl.
  destruct (IH _ H) as [[-> ->]|(dp' & vars & Hdp' & Hvars & ->)].
  { by exists v1. }
  apply lookup_lt_Some in Hdp as Hlt.
  rewrite list_lookup_insert_eq in Hdp' by done. injection Hdp' as <-.
  exists vars. split_and!; [done..|].
  by rewrite list_insert_insert_eq.
Qed.

Lemma cross_points_length crosses points (s s' : list DataPoint) :
  cross_points crosses points s = Some s' → length s' = length s.
Proof.
  intros H. eapply (for_each_inv (λ t, length t = length s)) in H; [done| |done].
  intros p t t' _ Ht Hp.
  apply cross_point_loop in Hp as [[_ ->]|(dp & vars & _ & _ & ->)]; [done|].
  by rewrite length_insert.
Qed.

(** When no point is registered twice, each registered point ends with its
    vector extended by the crosses, once, and the rest of the store is as
    before. *)
Lemma cross_points_NoDup crosses points (s s' : list DataPoint) :
  NoDup points →
  cross_points crosses points s = Some s' →
  (∀ p, p ∉ points → s' !! p = s !! p) ∧
  (∀ p dp, p ∈ points → s !! p = Some dp →
     ∃ vars, apply_crosses_to crosses (Variables dp) = Some vars ∧
             s' !! p = Some (set_Variables vars dp)).
Proof.
  unfold cross_points. intros Hnd. revert s.
  induction Hnd as [|p points Hp Hnd IH]; intros s H; simpl in H.
  { simplify_eq. split; [done|]. intros p dp Hin. by apply elem_of_nil in Hin. }
  apply bind_Some in H as (t & Hpt & H).
  destruct (IH _ H) as [Hout Hin].
  assert (∀ q, q ≠ p → t !! q = s !! q) as Hother.
  { intros q Hq.
    apply cross_point_loop in Hpt as [[_ ->]|(dp & vars & _ & _ & ->)];
      [done|]. by rewrite list_lookup_insert_ne. }
  split.
  - intros q Hq. apply not_elem_of_cons in Hq as [Hqp Hq].
    rewrite Hout by done. by apply Hother.
  - intros q dq Hq Hdq. apply elem_of_cons in Hq as [->|Hq].
    + rewrite Hout by done.
      apply cross_point_loop in Hpt as [[-> ->]|(dp & vars & Hdp & Hv & ->)].
      * exists (Variables dq). split; [done|]. rewrite Hdq. by destruct dq.
      * simplify_eq. exists vars. split; [done|].
        apply list_lookup_insert_eq. by eapply lookup_lt_Some.
    + assert (q ≠ p) as Hne by (intros ->; done).
      apply Hin; [done|]. by rewrite Hother.
Qed.

(** C3: the size test of [Run] reads the store that [applyCrosses] left.
    Whenever the crosses have extended the first point to [k] variables and
    the model holds fewer than [k + 1] points, [Run] returns the
    too-many-variables error, and it returns that error in no other case;
    a model of three points of arity two passes the test as it is and fails
    it once a square cross is registered. *)
Theorem Run_size_test_follows_crosses :
  (∀ s r logOutput s1 r1 k,
     Initialised r = true → HasRun r = false →
     applyCrosses s r = Some (s1, r1) →
     first_arity s1 r1 = Some k →
     length (Data r) < k + 1 →
     Run s r logOutput = Some (s1, set_HasRun true r1, Some ErrTooManyVars)) ∧
  (∀ s r logOutput s' r',
     Run s r logOutput = Some (s', r', Some ErrTooManyVars) →
     ∃ r1 k, applyCrosses s r = Some (s', r1) ∧
             first_arity s' r1 = Some k ∧ length (Data r) < k + 1) ∧
  (first_arity tight_store tight_model = Some 2 ∧
   length (Data tight_model) = 3 ∧
   (∀ logOutput s' r',
      Run tight_store tight_model logOutput
        ≠ Some (s', r', Some ErrTooManyVars)) ∧
   (∀ logOutput, ∃ s' r',
      Run tight_store (AddCross tight_model (PowCross 0 2)) logOutput
        = Some (s', r', Some ErrTooManyVars) ∧
      first_arity s' r' = Some 3)).
Proof.
  split_and!.
  - intros s r lo s1 r1 k Hi Hh Hc Hk Hlt. apply Run_paths.
    eapply path_too_many; [done..|].
    apply applyCrosses_model in Hc as (nm & ->). done.
  - intros s r lo s' r' H. apply Run_paths in H.
    inversion H as [| |s1 r1 k Hi Hh Hc Hk Hlt| |]; subst.
    exists r1, k. split_and!; [done..|].
    apply applyCrosses_model in Hc as (nm & ->). done.
  - reflexivity.
  - reflexivity.
  - intros lo s' r' H. apply Run_paths in H.
    inversion H as [| |s1 r1 k Hi Hh Hc Hk Hlt| |]; subst.
    vm_compute in Hc. injection Hc as <- <-.
    vm_compute in Hk. injection Hk as <-. simpl in Hlt. lia.
  - intros lo. eexists _, _. split.
    + apply Run_paths. eapply path_too_many; [reflexivity..|simpl; lia].
    + reflexivity.
Qed.


End CrossesFirst.

(** ** Loops that cannot panic are folds *)

Section LoopsAsFolds.
Context {St : Type}.

Lemma for_up_fold (f : St → nat → St) (body : nat → St → option St) n lo s :
  (∀ i t, lo ≤ i < lo + n → body i t = Some (f t i)) →
  for_up n lo body s = Some (fold_left f (seq lo n) s).
Proof.
  revert lo s. induction n as [|n IH]; intros lo s Hbody; simpl; [done|].
  rewrite Hbody by lia. simpl. apply IH. intros i t Hi. apply Hbody. lia.
Qed.

Lemma for_range_fold (f : St → nat → St) (body : nat → St → option St)
    lo hi s :
  (∀ i t, lo ≤ i < hi → body i t = Some (f t i)) →
  for_range lo hi body s = Some (fold_left f (seq lo (hi - lo)) s).
Proof.
  intros Hbody. apply for_up_fold. intros i t Hi. apply Hbody. lia.
Qed.

End LoopsAsFolds.

(** ** IEEE facts used below *)

Section Floats.

Lemma Prim2SF_zero : Prim2SF 0 = S754_zero false.
Proof. reflexivity. Qed.

Lemma is_finite_cases (x : float) :
  is_finite x = true →
  (∃ b, Prim2SF x = S754_zero b) ∨ (∃ b m e, Prim2SF x = S754_finite b m e).
Proof.
  unfold is_finite, is_nan, is_infinity.
  rewrite !FloatAxioms.eqb_spec, FloatAxioms.abs_spec.
  destruct (Prim2SF x) as [b|b| |b m e]; eauto; [|done].
  by destruct b.
Qed.

Lemma not_finite_intro (x : float) :
  Prim2SF x = S754_nan ∨ (∃ b, Prim2SF x = S754_infinity b) →
  is_finite x = false.
Proof.
  unfold is_finite, is_nan, is_infinity.
  rewrite !FloatAxioms.eqb_spec, FloatAxioms.abs_spec.
  intros [->|[b ->]]; [done|]. by destruct b.
Qed.

Lemma is_zero_cases (x : float) :
  is_zero x = true → ∃ b, Prim2SF x = S754_zero b.
Proof.
  unfold is_zero. rewrite FloatAxioms.eqb_spec.
  change (Prim2SF zero) with (S754_zero false).
  destruct (Prim2SF x) as [b|[]| |[] m e]; eauto; done.
Qed.

(** [0 + 0 * x] is [+0] for every finite [x], of either sign. *)
Lemma zero_plus_zero_times (x : float) :
  is_finite x = true → (0 + 0 * x)%float = 0%float.
Proof.
  intros Hx. apply Prim2SF_inj. rewrite add_spec, mul_spec, Prim2SF_zero.
  destruct (is_finite_cases x Hx) as [[b ->]|(b & m & e & ->)];
    by destruct b.
Qed.

(** A quotient by a zero of either sign is NaN or an infinity. *)
Lemma div_zero_not_finite (x y : float) :
  is_zero y = true → is_finite (x / y) = false.
Proof.
  intros [b Hy]%is_zero_cases. apply not_finite_intro.
  rewrite div_spec, Hy.
  destruct (Prim2SF x) as [bx|bx| |bx m e]; simpl; eauto.
Qed.

End Floats.

(** ** Prediction *)

Section Prediction.
Context `{Lib : Collaborators}.

(** The crosses only append. *)
Lemma apply_crosses_to_prefix crosses vars vars' :
  apply_crosses_to crosses vars = Some vars' →
  ∃ extra, vars' = vars ++ extra.
Proof.
  unfold apply_crosses_to. intros H.
  eapply (for_each_inv (λ t, ∃ extra, t = vars ++ extra)) in H; [done| |].
  - intros c t t' _ [extra ->] Hc. unfold cross_step in Hc.
    apply bind_Some in Hc as (e & _ & Hc). injection Hc as <-.
    exists (extra ++ e). by rewrite app_assoc.
  - exists []. by rewrite app_nil_r.
Qed.

(** The order of application: the first cross reads the vector as given,
    each later one the vector the crosses before it produced. *)
Lemma apply_crosses_to_cons c crosses vars :
  apply_crosses_to (c :: crosses) vars =
    extra ← Calculate c vars; apply_crosses_to crosses (vars ++ extra).
Proof.
  unfold apply_crosses_to, cross_step. simpl.
  by destruct (Calculate c vars).
Qed.

Lemma predict_loop r k (vars : list float) :
  k ≤ length vars →
  for_range 1 (k + 1)
    (λ j p, x ← vars !! (j - 1); Some (p + Coeff r (Z.of_nat j) * x)%float)
    (Coeff r 0)
  = Some (prediction_sum r k vars).
Proof.
  intros Hk. unfold prediction_sum.
  replace k with (k + 1 - 1) at 2 by lia.
  apply for_range_fold. intros i t Hi.
  destruct (lookup_lt_is_Some_2 vars (i - 1)) as [x Hx]; [lia|].
  by rewrite Hx.
Qed.


Lemma Coeff_empty r i : CoeffMap r = ∅ → Coeff r i = 0%float.
Proof. unfold Coeff. intros ->. by rewrite map_size_empty. Qed.

Lemma prediction_sum_empty r k (vars : list float) :
  CoeffMap r = ∅ →
  (∀ j, j < k → ∃ x, vars !! j = Some x ∧ is_finite x = true) →
  prediction_sum r k vars = 0%float.
Proof.
  intros He Hfin. unfold prediction_sum. rewrite Coeff_empty by done.
  assert (∀ l, (∀ i, i ∈ l → 1 ≤ i ≤ k) →
    fold_left
      (λ p i, (p + Coeff r (Z.of_nat i) * default 0 (vars !! (i - 1)%nat))%float)
      l 0%float = 0%float) as Hfold.
  { induction l as [|i l IH]; intros Hl; simpl; [done|].
    destruct (Hfin (i - 1)) as (x & -> & Hx).
    { assert (1 ≤ i ≤ k) by (apply Hl; by left). lia. }
    rewrite Coeff_empty by done. simpl.
    rewrite zero_plus_zero_times by done.
    apply IH. intros j Hj. apply Hl. by right. }
  apply Hfold. intros i Hi. apply elem_of_seq in Hi. lia.
Qed.

(** C10, as the code has it: on an initialised model whose coefficient map
    is empty, [Coeff] is 0 at every index, and [Predict] returns 0 and no
    error for every vector that, once the crosses are applied, has a finite
    value at each of the [k] places the sum reads. *)
Theorem Predict_before_fit_is_zero s r vars vars' k
    (Hinit : Initialised r = true)
    (Hempty : CoeffMap r = ∅)
    (Hcross : apply_crosses_to (Crosses r) vars = Some vars')
    (Harity : first_arity s r = Some k)
    (Hfinite : ∀ j, j < k → ∃ x, vars' !! j = Some x ∧ is_finite x = true) :
  (∀ i, Coeff r i = 0%float) ∧
  Predict s r vars = Some (0%float, None).
Proof.
  split; [intros i; by apply Coeff_empty|].
  assert (k ≤ length vars') as Hlen.
  { destruct k as [|k]; [lia|].
    destruct (Hfinite k) as (x & Hx & _); [lia|].
    apply lookup_lt_Some in Hx. lia. }
  unfold Predict. rewrite Hinit. simpl. rewrite Hcross. simpl.
  rewrite Harity. simpl. rewrite predict_loop by done. simpl.
  by rewrite prediction_sum_empty.
Qed.

End Prediction.

(** ** Construction from a table *)

Section Tables.

(** A loop that allocates one point per row. *)
Lemma push_rows (f : list float → DataPoint)
    (body : list float → list DataPoint * list ptr
              → option (list DataPoint * list ptr))
    (a : list (list float)) s ps :
  (∀ row st, row ∈ a →
     body row st = Some (push_point (Observed (f row)) (Variables (f row)) st)) →
  (∀ row, row ∈ a → Predicted (f row) = 0%float ∧ Error (f row) = 0%float) →
  for_each a body (s, ps)
  = Some (s ++ map f a, ps ++ seq (length s) (length a)).
Proof.
  revert s ps. induction a as [|row a IH]; intros s ps Hbody Hzero; simpl.
  { by rewrite !app_nil_r. }
  rewrite Hbody by left. simpl. unfold push_point, DataPointWrapper. simpl.
  rewrite IH.
  - rewrite length_app. simpl. rewrite Nat.add_1_r.
    rewrite <- !app_assoc. simpl.
    destruct (Hzero row) as [Hp He]; [left|].
    destruct (f row) as [o v p e]. simpl in *. by subst.
  - intros r st Hr. apply Hbody. by right.
  - intros r Hr. apply Hzero. by right.
Qed.

(** The inner loop of the slow path copies the row but for one index. *)
Lemma others_loop (n i0 : nat) (row acc : list float) :
  for_each_i i0 row (others_step (Z.of_nat n)) acc
  = Some (acc ++ if decide (i0 ≤ n) then delete (n - i0) row else row).
Proof.
  revert i0 acc. induction row as [|x row IH]; intros i0 acc; simpl.
  { case_decide; by rewrite app_nil_r. }
  change (others_step (Z.of_nat n) i0 x acc)
    with (if decide (Z.of_nat i0 = Z.of_nat n)
          then Some acc else Some (acc ++ [x])).
  destruct (decide (Z.of_nat i0 = Z.of_nat n)) as [Heq|Hne]; simpl;
    rewrite IH.
  - assert (i0 = n) as -> by lia.
    rewrite decide_False, decide_True by lia. by rewrite Nat.sub_diag.
  - case_decide as Hle.
    + rewrite decide_True by lia. rewrite <- app_assoc. simpl.
      by replace (n - i0) with (S (n - S i0)) by lia.
    + rewrite decide_False by lia. by rewrite <- app_assoc.
Qed.

Lemma first_row_point row st :
  0 < length row →
  first_row row st
  = Some (push_point (Observed (row_point 0 row))
            (Variables (row_point 0 row)) st).
Proof.
  intros Hlen. unfold first_row, slice_from, row_point.
  destruct row as [|x row]; [simpl in Hlen; lia|].
  rewrite decide_True by (simpl; lia). simpl. by rewrite drop_0.
Qed.

Lemma last_row_point (w : nat) row st :
  0 < w → length row = w →
  last_row (Z.of_nat w - 1) row st
  = Some (push_point (Observed (row_point (w - 1) row))
            (Variables (row_point (w - 1) row)) st).
Proof.
  intros Hw Hlen. unfold last_row, index, slice_to, row_point.
  rewrite decide_True by lia.
  replace (Z.to_nat (Z.of_nat w - 1)) with (w - 1) by lia.
  destruct (lookup_lt_is_Some_2 row (w - 1)) as [x Hx]; [lia|].
  rewrite Hx. simpl. rewrite decide_True by lia. simpl.
  rewrite delete_take_drop.
  replace (S (w - 1)) with (length row) by lia.
  by rewrite drop_all, app_nil_r.
Qed.

Lemma perverse_row_point (n : nat) row st :
  n < length row →
  perverse_row (Z.of_nat n) row st
  = Some (push_point (Observed (row_point n row))
            (Variables (row_point n row)) st).
Proof.
  intros Hlen. unfold perverse_row, index, row_point.
  rewrite decide_True by lia. rewrite Nat2Z.id.
  destruct (lookup_lt_is_Some_2 row n) as [x Hx]; [lia|].
  rewrite Hx. simpl. rewrite others_loop. simpl.
  by rewrite Nat.sub_0_r.
Qed.

(** C8: on a table with at least one row, all rows of one width [w], and a
    column index below [w], [MakeDataPoints] allocates one point per row, in
    row order, each holding the entry of that column as observed value and
    the other entries in their original order; the slow path, which
    [MakeDataPoints] takes for an inner column, returns the same when it is
    called on its own, also for the first and the last column. *)
Theorem MakeDataPoints_rows (s : list DataPoint) (a : list (list float))
    (w obsIndex : nat)
    (Hrows : a ≠ [])
    (Hrect : Forall (λ row, length row = w) a)
    (Hindex : obsIndex < w) :
  MakeDataPoints s a (Z.of_nat obsIndex)
    = Some (s ++ map (row_point obsIndex) a, seq (length s) (length a)) ∧
  perverseMakeDataPoints s a (Z.of_nat obsIndex)
    = MakeDataPoints s a (Z.of_nat obsIndex).
Proof.
  rewrite Forall_forall in Hrect.
  assert (perverseMakeDataPoints s a (Z.of_nat obsIndex)
    = Some (s ++ map (row_point obsIndex) a, seq (length s) (length a)))
    as Hslow.
  { unfold perverseMakeDataPoints.
    rewrite (push_rows (row_point obsIndex)); [done| |done].
    intros row st Hrow. apply perverse_row_point.
    rewrite (Hrect row) by done. lia. }
  rewrite Hslow.
  enough (MakeDataPoints s a (Z.of_nat obsIndex)
    = Some (s ++ map (row_point obsIndex) a, seq (length s) (length a)))
    as -> by done.
  assert (∃ a0, a !! 0 = Some a0 ∧ length a0 = w) as (a0 & H0 & Ha0).
  { destruct a as [|a0 a']; [done|]. exists a0. split; [done|].
    apply Hrect. left. }
  unfold MakeDataPoints. rewrite H0.
  destruct (decide (Z.of_nat obsIndex = 0%Z)) as [Hz|Hnz]; simpl.
  - assert (obsIndex = 0) as -> by lia.
    rewrite (push_rows (row_point 0)); [done| |done].
    intros row st Hrow. apply first_row_point.
    rewrite (Hrect row) by done. lia.
  - rewrite Ha0. case_bool_decide as Hlast; [exact Hslow|].
    assert (obsIndex = w - 1) as -> by lia.
    rewrite (push_rows (row_point (w - 1))); [done| |done].
    intros row st Hrow. apply last_row_point; [lia|].
    by apply Hrect.
Qed.

End Tables.

(** ** Index loops over a slice *)

Section SliceLoops.
Context {A St : Type}.

Lemma for_up_lookup (pre l : list A) (g : nat → A → St → option St) s :
  for_up (length l) (length pre)
    (λ i t, x ← (pre ++ l) !! i; g i x t) s
  = for_each_i (length pre) l g s.
Proof.
  revert pre s. induction l as [|x l IH]; intros pre s; simpl; [done|].
  rewrite list_lookup_middle by done. simpl.
  destruct (g (length pre) x s) as [t|]; simpl; [|done].
  specialize (IH (pre ++ [x]) t).
  rewrite length_app, Nat.add_1_r, <- app_assoc in IH. exact IH.
Qed.

(** [for i := 0; i < len(l); i++ { x := l[i]; ... }] is a range loop. *)
Lemma for_range_lookup (l : list A) (g : nat → A → St → option St) s :
  for_range 0 (length l) (λ i t, x ← l !! i; g i x t) s
  = for_each_i 0 l g s.
Proof.
  unfold for_range. rewrite Nat.sub_0_r. exact (for_up_lookup [] l g s).
Qed.

Lemma for_each_i_const i0 (l : list A) (g : A → St → option St) s :
  for_each_i i0 l (λ _, g) s = for_each l g s.
Proof.
  revert i0 s. induction l as [|x l IH]; intros i0 s; simpl; [done|].
  destruct (g x s); simpl; [apply IH|done].
Qed.

Lemma for_up_ext (g g' : nat → St → option St) n lo s :
  (∀ i t, g i t = g' i t) → for_up n lo g s = for_up n lo g' s.
Proof.
  intros Hg. revert lo s. induction n as [|n IH]; intros lo s; simpl; [done|].
  rewrite Hg. destruct (g' lo s); simpl; [apply IH|done].
Qed.

(** A range loop whose body first reads [l[i]] and does not use [i]
    otherwise. *)
Lemma for_range_each (l : list A) (g : nat → St → option St)
    (h : A → St → option St) s :
  (∀ i t, g i t = x ← l !! i; h x t) →
  for_range 0 (length l) g s = for_each l h s.
Proof.
  intros Hg. rewrite <- (for_each_i_const 0).
  rewrite <- (for_range_lookup l (λ _, h)).
  unfold for_range. by apply for_up_ext.
Qed.

Lemma for_each_i_cons i0 x (l : list A) (g : nat → A → St → option St) s :
  for_each_i i0 (x :: l) g s = g i0 x s ≫= for_each_i (S i0) l g.
Proof. done. Qed.

End SliceLoops.

(** ** The store under the statistics pass *)

Section Stores.
Context `{Lib : Collaborators}.

Lemma inputs_of_lookup (s : list DataPoint) p :
  inputs_of s !! p = (λ dp, (Observed dp, Variables dp)) <$> s !! p.
Proof. apply list_lookup_fmap. Qed.

Lemma inputs_of_lookup_Some (s t : list DataPoint) p dp :
  inputs_of t = inputs_of s → s !! p = Some dp →
  ∃ dp', t !! p = Some dp' ∧ Observed dp' = Observed dp ∧
         Variables dp' = Variables dp.
Proof.
  intros Heq Hp.
  assert (inputs_of t !! p = Some (Observed dp, Variables dp)) as Ht.
  { by rewrite Heq, inputs_of_lookup, Hp. }
  rewrite inputs_of_lookup in Ht.
  destruct (t !! p) as [dp'|]; simpl in Ht; [|done].
  injection Ht as Ho Hv. eauto.
Qed.

Lemma inputs_of_insert (s : list DataPoint) p dp dp' :
  s !! p = Some dp →
  Observed dp' = Observed dp → Variables dp' = Variables dp →
  inputs_of (<[p := dp']> s) = inputs_of s.
Proof.
  intros Hp Ho Hv. unfold inputs_of. rewrite list_fmap_insert.
  apply list_insert_id. rewrite list_lookup_fmap, Hp. simpl.
  by rewrite Ho, Hv.
Qed.

Lemma first_arity_inputs (s t : list DataPoint) r :
  inputs_of t = inputs_of s → first_arity t r = first_arity s r.
Proof.
  intros Heq. unfold first_arity.
  destruct (Data r !! 0) as [p0|]; simpl; [|done].
  assert (inputs_of t !! p0 = inputs_of s !! p0) as Hp by by rewrite Heq.
  rewrite !inputs_of_lookup in Hp.
  destruct (t !! p0), (s !! p0); simpl in *; try done.
  injection Hp as _ Hv. by rewrite Hv.
Qed.

(** [Predict] reads the store only for the arity of the first point. *)
Lemma Predict_inputs (s t : list DataPoint) r vars :
  inputs_of t = inputs_of s → Predict t r vars = Predict s r vars.
Proof.
  intros Heq. unfold Predict. by rewrite (first_arity_inputs s t).
Qed.

Lemma points_of_inputs (s t : list DataPoint) r pts :
  inputs_of t = inputs_of s →
  points_of s r = Some pts →
  ∃ pts', points_of t r = Some pts' ∧
    Forall2 (λ dp dp', Observed dp' = Observed dp ∧
                       Variables dp' = Variables dp) pts pts'.
Proof.
  unfold points_of. intros Heq. generalize (Data r). intros l. revert pts.
  induction l as [|p l IH]; intros pts H; apply mapM_Some in H.
  { apply Forall2_nil_inv_l in H as ->. exists [].
    split; [done|constructor]. }
  apply Forall2_cons_inv_l in H as (dp & pts0 & Hp & H & ->).
  apply mapM_Some in H. destruct (IH _ H) as (pts' & Hpts' & Hall).
  destruct (inputs_of_lookup_Some s t p dp Heq Hp) as (dp' & Hp' & Ho & Hv).
  exists (dp' :: pts'). split; [|by constructor].
  apply mapM_Some. constructor; [done|]. by apply mapM_Some.
Qed.

End Stores.

(** ** The design matrix *)

Section Design.
Context `{Lib : Collaborators}.

(** The loops of [Run] over the data slice are loops over its addresses. *)
Lemma build_design_rows s r k :
  build_design s r (length (Data r)) k
  = for_each_i 0 (Data r) (fill_point s k)
      (Zeros (length (Data r)) 1, Zeros (length (Data r)) (k + 1)).
Proof. apply (for_range_lookup (Data r) (fill_point s k)). Qed.

Lemma fill_cells_total dp i k v :
  k ≤ length (Variables dp) →
  is_Some (for_range 0 (k + 1) (fill_cell dp i) v).
Proof.
  intros Hk.
  destruct (for_range_total (λ _ _, True) (fill_cell dp i) 0 (k + 1) v)
    as (v' & -> & _); [lia| |done|done].
  intros j t Hj _. unfold fill_cell. case_decide; [eauto|].
  destruct (lookup_lt_is_Some_2 (Variables dp) (j - 1)) as [x ->]; [lia|].
  simpl. eauto.
Qed.

Lemma fill_rows_total s k l i0 m pts :
  mapM (λ p, s !! p) l = Some pts →
  Forall (λ dp, k ≤ length (Variables dp)) pts →
  is_Some (for_each_i i0 l (fill_point s k) m).
Proof.
  revert i0 m pts. induction l as [|p l IH]; intros i0 m pts Hpts Hall;
    simpl; [done|].
  apply mapM_Some, Forall2_cons_inv_l in Hpts
    as (dp & pts' & Hp & Hpts & ->).
  apply Forall_cons in Hall as [Hdp Hall].
  assert (is_Some (fill_point s k i0 p m)) as [m' ->].
  { unfold fill_point. rewrite Hp. simpl.
    destruct (fill_cells_total dp i0 k m.2 Hdp) as [v' ->]. by simpl. }
  simpl. eapply IH; [by apply mapM_Some|done].
Qed.

Context `{Contract : !MatrixContract}.

Lemma fill_cells_spec dp i k v v' :
  i < Rows v → Cols v = k + 1 →
  for_range 0 (k + 1) (fill_cell dp i) v = Some v' →
  Rows v' = Rows v ∧ Cols v' = Cols v ∧
  mGet v' i 0 = 1%float ∧
  (∀ j, j < k → Variables dp !! j = Some (mGet v' i (S j))) ∧
  (∀ i' j', i' ≠ i → i' < Rows v → j' < Cols v →
     mGet v' i' j' = mGet v i' j').
Proof.
  intros Hi Hc Hrun.
  eapply (for_range_inv
    (λ j w, Rows w = Rows v ∧ Cols w = Cols v ∧
       (0 < j → mGet w i 0 = 1%float) ∧
       (∀ j', S j' < j → Variables dp !! j' = Some (mGet w i (S j'))) ∧
       (∀ i' j', i' ≠ i → i' < Rows v → j' < Cols v →
          mGet w i' j' = mGet v i' j'))) in Hrun.
  - destruct Hrun as (Hr & Hcv & H0 & Hv & Hrest).
    split_and!; [done|done|apply H0; lia| |done].
    intros j Hj. apply Hv. lia.
  - lia.
  - intros j w w' Hj (Hr & Hcw & H0 & Hv & Hrest) Hstep.
    unfold fill_cell in Hstep. case_decide as Hj0.
    + subst j. injection Hstep as <-.
      rewrite Rows_mSet, Cols_mSet. split_and!; [done|done| | |].
      * intros _. apply mGet_mSet_eq; lia.
      * intros j' Hj'. lia.
      * intros i' j' Hne Hi' Hj'.
        rewrite mGet_mSet_ne by (try lia; congruence). by apply Hrest.
    + apply bind_Some in Hstep as (x & Hx & Hstep). injection Hstep as <-.
      rewrite Rows_mSet, Cols_mSet. split_and!; [done|done| | |].
      * intros _. rewrite mGet_mSet_ne by (try lia; congruence).
        apply H0. lia.
      * intros j' Hj'. destruct (decide (S j' = j)) as [<-|Hne].
        -- rewrite mGet_mSet_eq by lia. by rewrite <- Hx, Nat.sub_1_r.
        -- rewrite mGet_mSet_ne by (try lia; congruence). apply Hv. lia.
      * intros i' j' Hne Hi' Hj'.
        rewrite mGet_mSet_ne by (try lia; congruence). by apply Hrest.
  - split_and!; [done|done|lia| |done]. intros j' Hj'. lia.
Qed.

Lemma fill_rows_spec s k n l i0 o v o' v' :
  Rows o = n → Cols o = 1 → Rows v = n → Cols v = k + 1 →
  i0 + length l ≤ n →
  for_each_i i0 l (fill_point s k) (o, v) = Some (o', v') →
  ∃ pts, mapM (λ p, s !! p) l = Some pts ∧
    Forall (λ dp, k ≤ length (Variables dp)) pts ∧
    (Rows o' = n ∧ Cols o' = 1 ∧ Rows v' = n ∧ Cols v' = k + 1) ∧
    (∀ i dp, pts !! i = Some dp →
       mGet o' (i0 + i) 0 = Observed dp ∧
       mGet v' (i0 + i) 0 = 1%float ∧
       ∀ j, j < k → Variables dp !! j = Some (mGet v' (i0 + i) (S j))) ∧
    (∀ i' j', i' < i0 →
       (j' < 1 → mGet o' i' j' = mGet o i' j') ∧
       (j' < k + 1 → mGet v' i' j' = mGet v i' j')).
Proof.
  revert i0 o v. induction l as [|p l IH];
    intros i0 o v Hro Hco Hrv Hcv Hlen Hrun; simpl in Hrun.
  { injection Hrun as <- <-. exists []. split_and!; done. }
  simpl in Hlen.
  apply bind_Some in Hrun as ([o1 v1] & Hstep & Hrun).
  unfold fill_point in Hstep. simpl in Hstep.
  apply bind_Some in Hstep as (dp & Hp & Hstep).
  apply bind_Some in Hstep as (w & Hcells & Hstep).
  injection Hstep as <- <-.
  apply fill_cells_spec in Hcells as (Hrw & Hcw & Hw0 & Hwv & Hwrest);
    [|lia|done].
  apply IH in Hrun as (pts & Hpts & Hall & (Hro' & Hco' & Hrv' & Hcv') & Hrows & Hbefore);
    [|by rewrite Rows_mSet|by rewrite Cols_mSet|lia|lia|lia].
  exists (dp :: pts). split_and!; try done.
  - apply mapM_Some. constructor; [done|by apply mapM_Some].
  - constructor; [|done].
    destruct k as [|k]; [lia|].
    specialize (Hwv k (Nat.lt_succ_diag_r k)).
    apply lookup_lt_Some in Hwv. lia.
  - intros [|i] dq Hi; simpl in Hi.
    + injection Hi as <-. rewrite Nat.add_0_r.
      destruct (Hbefore i0 0) as [Ho Hv0]; [lia|].
      split_and!.
      * rewrite Ho by lia. apply mGet_mSet_eq; lia.
      * rewrite Hv0 by lia. done.
      * intros j Hj. destruct (Hbefore i0 (S j)) as [_ Hvj]; [lia|].
        rewrite Hvj by lia. by apply Hwv.
    + replace (i0 + S i) with (S i0 + i) by lia. by apply Hrows.
  - intros i' j' Hi'.
    destruct (Hbefore i' j') as [Ho Hv0]; [lia|]. split.
    + intros Hj'. rewrite Ho by done.
      apply mGet_mSet_ne; try lia. intros [=]. lia.
    + intros Hj'. rewrite Hv0 by done. apply Hwrest; lia.
Qed.

(** The matrices [Run] builds are the observation vector and the design
    matrix of the model's points. *)
Lemma build_design_spec s r k m :
  build_design s r (length (Data r)) k = Some m →
  ∃ pts, points_of s r = Some pts ∧
    Forall (λ dp, k ≤ length (Variables dp)) pts ∧
    is_observation_vector pts m.1 ∧ is_design_matrix pts k m.2.
Proof.
  rewrite build_design_rows. destruct m as [o v]. intros Hrun.
  apply (fill_rows_spec s k (length (Data r))) in Hrun
    as (pts & Hpts & Hall & (Hro & Hco & Hrv & Hcv) & Hrows & _);
    [|by rewrite ?Rows_Zeros, ?Cols_Zeros..|simpl; lia].
  exists pts. split_and!; [done|done| |].
  - assert (length pts = length (Data r)) as Hlen.
    { apply mapM_Some, Forall2_length in Hpts. done. }
    split_and!; [simpl; congruence|done|].
    intros i dp Hi. by apply (Hrows i dp).
  - assert (length pts = length (Data r)) as Hlen.
    { apply mapM_Some, Forall2_length in Hpts. done. }
    split_and!; [simpl; congruence|done|].
    intros i dp Hi. destruct (Hrows i dp Hi) as (_ & H1 & Hv). done.
Qed.

End Design.

(** ** Back-substitution *)

Section BackSubstitution.
Context `{Lib : Collaborators}.

Lemma minus_terms_ext (c c' : nat → float) R n i x :
  (∀ j, i < j < n → c j = c' j) →
  minus_terms c R n i x = minus_terms c' R n i x.
Proof.
  intros Hc. unfold minus_terms.
  assert (∀ l y, (∀ j, j ∈ l → i < j < n) →
    fold_left (λ acc j, (acc - c j * mGet R i j)%float) l y
    = fold_left (λ acc j, (acc - c' j * mGet R i j)%float) l y) as Hfold.
  { induction l as [|j l IH]; intros y Hl; simpl; [done|].
    rewrite Hc by (apply Hl; left). apply IH.
    intros j' Hj'. apply Hl. by right. }
  apply Hfold. intros j Hj. apply elem_of_seq in Hj. lia.
Qed.

(** The inner loop takes the terms of one row off [c[i]], one by one. *)
Lemma backsub_terms R i (c : nat → float) m lo (c0 : list float) x :
  i < lo → lo + m ≤ length c0 →
  c0 !! i = Some x →
  (∀ j, lo ≤ j < lo + m → c0 !! j = Some (c j)) →
  for_up m lo (backsub_term R i) c0
  = Some (<[i := fold_left (λ acc j, (acc - c j * mGet R i j)%float)
                   (seq lo m) x]> c0).
Proof.
  revert lo c0 x. induction m as [|m IH]; intros lo c0 x Hi Hlen Hx Hc;
    simpl.
  { by rewrite list_insert_id. }
  assert (backsub_term R i lo c0
    = Some (<[i := (x - c lo * mGet R i lo)%float]> c0)) as ->.
  { unfold backsub_term, slice_set. rewrite Hx. simpl.
    rewrite (Hc lo) by lia. simpl. by rewrite decide_True by lia. }
  simpl. rewrite (IH (S lo) _ (x - c lo * mGet R i lo)%float).
  - by rewrite list_insert_insert_eq.
  - lia.
  - rewrite length_insert. lia.
  - apply list_lookup_insert_eq. lia.
  - intros j Hj. rewrite list_lookup_insert_ne by lia. apply Hc. lia.
Qed.

(** One round of the outer loop solves row [i] and writes nothing else. *)
Lemma backsub_row_spec qty R n i (c0 : list float) :
  i < n → length c0 = n →
  ∃ x, backsub_row qty R n i c0 = Some (<[i := x]> c0) ∧
       x = (minus_terms (at_index c0) R n i (mGet qty i 0) / mGet R i i)%float.
Proof.
  intros Hi Hlen. eexists. split; [|reflexivity].
  unfold backsub_row, slice_set.
  rewrite decide_True by lia. simpl.
  unfold for_range. replace (i + 1) with (S i) by lia.
  rewrite (backsub_terms R i (at_index c0) (n - S i) (S i) _ (mGet qty i 0)).
  - simpl. rewrite list_lookup_insert_eq by (rewrite length_insert; lia).
    simpl. rewrite length_insert, decide_True by (rewrite ?length_insert; lia).
    by rewrite !list_insert_insert_eq.
  - lia.
  - rewrite length_insert. lia.
  - apply list_lookup_insert_eq. lia.
  - intros j Hj. rewrite list_lookup_insert_ne by lia. unfold at_index.
    destruct (lookup_lt_is_Some_2 c0 j) as [y ->]; [lia|done].
Qed.

(** Back-substitution never panics, and solves every row. *)
Lemma backsub_spec qty R n :
  ∃ c, backsub qty R n = Some c ∧ length c = n ∧
       ∀ i, i < n → row_solved qty R n (at_index c) i.
Proof.
  unfold backsub.
  destruct (for_down_total
    (λ i c, length c = n ∧ ∀ i', i ≤ i' < n → row_solved qty R n (at_index c) i')
    (backsub_row qty R n) n (replicate n 0%float)) as (c & Hc & Hlen & Hrows).
  - intros i c Hi [Hlen Hrows].
    destruct (backsub_row_spec qty R n i c Hi Hlen) as (x & -> & Hx).
    eexists. split; [done|]. split; [by rewrite length_insert|].
    intros i' Hi'. unfold row_solved.
    assert (∀ j, i < j → at_index (<[i:=x]> c) j = at_index c j) as Hsame.
    { intros j Hj. unfold at_index. by rewrite list_lookup_insert_ne by lia. }
    rewrite (minus_terms_ext _ (at_index c)) by (intros j Hj; apply Hsame; lia).
    destruct (decide (i' = i)) as [->|Hne].
    + unfold at_index at 1. rewrite list_lookup_insert_eq by lia. done.
    + rewrite Hsame by lia. apply Hrows. lia.
  - split; [by rewrite length_replicate|]. intros i' Hi'. lia.
  - exists c. split_and!; [done|done|]. intros i Hi. apply Hrows. lia.
Qed.

(** The coefficient store: key [i] holds [c[i]], and there is no other
    key. *)
Lemma output_loop logOutput (c : list float) i0 r r' :
  for_each_i i0 c (output_step logOutput) r = Some r' →
  ∀ z : Z,
    CoeffMap r' !! z =
      if decide (Z.of_nat i0 ≤ z < Z.of_nat (i0 + length c))%Z
      then c !! (Z.to_nat z - i0) else CoeffMap r !! z.
Proof.
  revert i0 r. induction c as [|x c IH]; intros i0 r Hrun z.
  { injection Hrun as <-. rewrite decide_False; [done|]. simpl. lia. }
  rewrite for_each_i_cons in Hrun.
  apply bind_Some in Hrun as (r1 & Hstep & Hrun).
  rewrite (IH _ _ Hrun z).
  assert (CoeffMap r1 = <[Z.of_nat i0 := x]> (CoeffMap r)) as ->.
  { unfold output_step in Hstep. injection Hstep as <-.
    destruct logOutput; [case_decide|]; done. }
  simpl. destruct (decide (z = Z.of_nat i0)) as [->|Hne].
  - rewrite decide_False by lia. rewrite decide_True by lia.
    rewrite lookup_insert_eq. by replace (Z.to_nat (Z.of_nat i0) - i0) with 0 by lia.
  - rewrite lookup_insert_ne by done.
    case_decide as H1; case_decide as H2; try lia; [|done].
    by replace (Z.to_nat z - i0) with (S (Z.to_nat z - S i0)) by lia.
Qed.

Lemma output_loop_size logOutput (c : list float) i0 r r' :
  for_each_i i0 c (output_step logOutput) r = Some r' →
  (∀ z, (Z.of_nat i0 ≤ z)%Z → CoeffMap r !! z = None) →
  size (CoeffMap r') = size (CoeffMap r) + length c.
Proof.
  revert i0 r. induction c as [|x c IH]; intros i0 r Hrun Hfree.
  { injection Hrun as <-. simpl. lia. }
  rewrite for_each_i_cons in Hrun.
  apply bind_Some in Hrun as (r1 & Hstep & Hrun).
  assert (CoeffMap r1 = <[Z.of_nat i0 := x]> (CoeffMap r)) as Hr1.
  { unfold output_step in Hstep. injection Hstep as <-.
    destruct logOutput; [case_decide|]; done. }
  rewrite (IH _ _ Hrun).
  - rewrite Hr1, map_size_insert_None by (apply Hfree; lia). simpl. lia.
  - intros z Hz. rewrite Hr1, lookup_insert_ne by lia. apply Hfree. lia.
Qed.

Lemma output_results_total logOutput c r :
  is_Some (output_results logOutput c r).
Proof.
  unfold output_results. generalize (set_CoeffMap ∅ r) 0.
  induction c as [|x c IH]; intros r0 i0; simpl; [done|]. apply IH.
Qed.

Lemma output_results_spec logOutput (c : list float) r r' :
  output_results logOutput c r = Some r' →
  size (CoeffMap r') = length c ∧
  (∀ z : Z, is_Some (CoeffMap r' !! z) ↔ (0 ≤ z < Z.of_nat (length c))%Z) ∧
  (∀ i, CoeffMap r' !! Z.of_nat i = c !! i) ∧
  (∀ i, i < length c → Coeff r' (Z.of_nat i) = at_index c i).
Proof.
  unfold output_results. intros Hrun.
  pose proof (output_loop _ _ _ _ _ Hrun) as Hlook.
  pose proof (output_loop_size _ _ _ _ _ Hrun) as Hsize.
  simpl in Hlook, Hsize. rewrite map_size_empty in Hsize.
  assert (∀ i, CoeffMap r' !! Z.of_nat i = c !! i) as Hnat.
  { intros i. rewrite Hlook. case_decide as Hi.
    - by rewrite Nat2Z.id, Nat.sub_0_r.
    - rewrite lookup_empty. symmetry. apply lookup_ge_None. lia. }
  split_and!.
  - apply Hsize. intros z _. apply lookup_empty.
  - intros z. rewrite Hlook. case_decide as Hz.
    + split; [lia|]. intros _. apply lookup_lt_is_Some_2. lia.
    + rewrite lookup_empty. split; [by intros [? ?]|lia].
  - done.
  - intros i Hi. unfold Coeff, at_index.
    rewrite decide_False by (rewrite Hsize; [lia|intros z _; apply lookup_empty]).
    by rewrite Hnat.
Qed.

End BackSubstitution.

(** ** The statistics pass *)

Section Statistics.
Context `{Lib : Collaborators}.

Lemma calcPredicted_points s r :
  calcPredicted s r = for_each (Data r) (predict_at r) s.
Proof.
  unfold calcPredicted. by apply for_range_each.
Qed.

Lemma Predict_value s r vars vars' k :
  Initialised r = true →
  apply_crosses_to (Crosses r) vars = Some vars' →
  first_arity s r = Some k →
  k ≤ length vars' →
  Predict s r vars = Some (prediction_sum r k vars', None).
Proof.
  intros Hi Hc Hk Hlen. unfold Predict.
  rewrite Hi. simpl. rewrite Hc. simpl. rewrite Hk. simpl.
  by rewrite predict_loop.
Qed.

Lemma fitted_inputs r (s t : list DataPoint) q :
  inputs_of t = inputs_of s → t !! q = s !! q →
  fitted r s q → fitted r t q.
Proof.
  intros Heq Hq (dp & res & Hdp & Hres & Hp & He).
  exists dp, res. split_and!; [congruence| |done..].
  by rewrite (Predict_inputs s t).
Qed.

Lemma predict_at_spec r p (t t' : list DataPoint) :
  predict_at r p t = Some t' →
  inputs_of t' = inputs_of t ∧ fitted r t' p ∧
  ∀ q, q ≠ p → t' !! q = t !! q.
Proof.
  unfold predict_at. intros H.
  apply bind_Some in H as (dp & Hdp & H).
  apply bind_Some in H as (res & Hres & H). injection H as <-.
  assert (inputs_of
    (<[p:=set_Error (Predicted (set_Predicted res.1 dp)
                       - Observed (set_Predicted res.1 dp))
            (set_Predicted res.1 dp)]> t) = inputs_of t) as Hin.
  { by eapply inputs_of_insert. }
  split_and!; [done| |].
  - eexists _, res. split_and!.
    + apply list_lookup_insert_eq. by eapply lookup_lt_Some.
    + simpl. by rewrite (Predict_inputs t).
    + done.
    + done.
  - intros q Hq. by rewrite list_lookup_insert_ne.
Qed.

(** After [calcPredicted] every registered point is fitted, and no observed
    value or variable vector has changed. *)
Lemma predict_all_spec r l (t t' : list DataPoint) :
  for_each l (predict_at r) t = Some t' →
  inputs_of t' = inputs_of t ∧
  (∀ p, p ∈ l → fitted r t' p) ∧
  (∀ q, fitted r t q → fitted r t' q).
Proof.
  revert t. induction l as [|p l IH]; intros t H; simpl in H.
  { injection H as <-. split_and!; [done| |done].
    intros p Hp. by apply elem_of_nil in Hp. }
  apply bind_Some in H as (t1 & Hstep & H).
  apply predict_at_spec in Hstep as (Hin1 & Hfit1 & Hother).
  apply IH in H as (Hin & Hfit & Hkeep).
  split_and!.
  - congruence.
  - intros q Hq. apply elem_of_cons in Hq as [->|Hq]; auto.
  - intros q Hq. apply Hkeep.
    destruct (decide (q = p)) as [->|Hne]; [done|].
    eapply fitted_inputs; [done|by apply Hother|done].
Qed.

Lemma predict_all_total r k l (t : list DataPoint) :
  Initialised r = true →
  first_arity t r = Some k →
  (∀ p, p ∈ l → ∃ dp, t !! p = Some dp ∧ k ≤ length (Variables dp) ∧
     is_Some (apply_crosses_to (Crosses r) (Variables dp))) →
  is_Some (for_each l (predict_at r) t).
Proof.
  intros Hi. revert t. induction l as [|p l IH]; intros t Hk Hl; simpl;
    [done|].
  destruct (Hl p) as (dp & Hdp & Hlen & [v' Hv']); [left|].
  assert (is_Some (predict_at r p t)) as [t1 Hstep].
  { unfold predict_at. rewrite Hdp. simpl.
    destruct (apply_crosses_to_prefix _ _ _ Hv') as [extra ->].
    rewrite (Predict_value t r _ _ k Hi Hv' Hk)
      by (rewrite length_app; lia). by simpl. }
  rewrite Hstep. simpl.
  apply predict_at_spec in Hstep as (Hin1 & _ & Hother).
  apply IH.
  - by rewrite (first_arity_inputs t).
  - intros q Hq. destruct (Hl q) as (dq & Hdq & Hlq & Hcq); [by right|].
    destruct (inputs_of_lookup_Some t t1 q dq Hin1 Hdq)
      as (dq' & Hdq' & _ & Hv).
    exists dq'. by rewrite Hv.
Qed.

(** A loop that adds two quantities per point is a pair of sums over the
    points. *)
Lemma pair_sums (s : list DataPoint) (f1 f2 : DataPoint → float) l t :
  for_each l
    (λ p (t : float * float),
       dp ← s !! p; Some (t.1 + f1 dp, t.2 + f2 dp)%float) t
  = pts ← mapM (λ p, s !! p) l;
    Some (fold_left PrimFloat.add (f1 <$> pts) t.1,
          fold_left PrimFloat.add (f2 <$> pts) t.2).
Proof.
  revert t. induction l as [|p l IH]; intros t; simpl.
  { by destruct t. }
  destruct (s !! p) as [dp|]; simpl; [|done].
  rewrite IH. by destruct (mapM _ l).
Qed.

Lemma calcVariance_points s r :
  calcVariance s r =
    pts ← points_of s r;
    Some (set_VariancePredicted (population_variance (Predicted <$> pts))
            (set_Varianceobserved (population_variance (Observed <$> pts)) r)).
Proof.
  unfold calcVariance, points_of.
  rewrite (for_range_each (Data r) _ (total_at s)) by done.
  unfold total_at. rewrite (pair_sums s Observed Predicted).
  destruct (mapM _ (Data r)) as [pts|] eqn:Hpts; simpl; [|done].
  assert (length pts = length (Data r)) as Hlen.
  { apply mapM_Some, Forall2_length in Hpts. done. }
  match goal with
  | |- context [for_range _ _ (var_step s r ?oa ?pa)] =>
      rewrite (for_range_each (Data r) (var_step s r oa pa) (var_at s oa pa))
        by done;
      unfold var_at;
      rewrite (pair_sums s (λ dp, math_Pow (Observed dp - oa) 2)
                 (λ dp, math_Pow (Predicted dp - pa) 2))
  end.
  rewrite Hpts. simpl.
  unfold population_variance, fmean, fsum.
  rewrite !length_fmap, Hlen, <- !list_fmap_compose. done.
Qed.

End Statistics.

(** ** A successful fit *)

Section Fit.
Context `{Lib : Collaborators}.

Lemma Predict_error s r vars x e :
  Predict s r vars = Some (x, Some e) → Initialised r = false.
Proof.
  unfold Predict. destruct (Initialised r); simpl; [|done].
  intros H. apply bind_Some in H as (v & _ & H).
  apply bind_Some in H as (k & _ & H).
  apply bind_Some in H as (p & _ & H). simplify_eq.
Qed.

(** What a call of [Run] that returns no error has gone through. *)
Lemma Run_fit s r logOutput s' r' :
  Run s r logOutput = Some (s', r', None) →
  ∃ s1 r1 k m c r2,
    Initialised r = true ∧ HasRun r = false ∧
    applyCrosses s r = Some (s1, r1) ∧
    first_arity s1 r1 = Some k ∧ k + 1 ≤ length (Data r1) ∧
    build_design s1 r1 (length (Data r1)) k = Some m ∧
    (Times (Transpose (QR m.2).1) m.1).2 = None ∧
    backsub (Times (Transpose (QR m.2).1) m.1).1 (QR m.2).2 (Cols m.2)
      = Some c ∧
    output_results logOutput c (set_HasRun true r1) = Some r2 ∧
    calcPredicted s1 r2 = Some s' ∧
    ∃ pts, points_of s' r2 = Some pts ∧
      r' = set_HasRun true (calcR2
             (set_VariancePredicted (population_variance (Predicted <$> pts))
               (set_Varianceobserved
                  (population_variance (Observed <$> pts)) r2))).
Proof.
  intros H. apply Run_paths in H.
  inversion H as [| | | |s1 r1 k m c r2 s2 r3 Hi Hh Hc Hk Hge Hm Ht Hb Ho Hp Hv];
    subst.
  rewrite calcVariance_points in Hv.
  apply bind_Some in Hv as (pts & Hpts & Hv). injection Hv as <-.
  exists s1, r1, k, m, c, r2. split_and!; try done. by exists pts.
Qed.


End Fit.

Section FitWithContract.
Context `{Lib : Collaborators} `{Contract : !MatrixContract}.

(** C4: in a call of [Run] that returns no error the stored coefficients
    solve the triangular system from the bottom up. With the design matrix
    of the crossed points (a row per point, a column of ones, a column per
    variable), Q and R its factors and [qty] the product of Q transposed
    with the observation vector, coefficient [i] is [qty[i]] minus the terms
    [coefficient[j] * R[i,j]] for [j > i], taken off in increasing [j], the
    whole divided by [R[i,i]]; so each coefficient depends on the later ones
    only. *)
Theorem Run_back_substitution s r logOutput s' r'
    (Hrun : Run s r logOutput = Some (s', r', None)) :
  ∃ s1 r1 pts k observed design,
    applyCrosses s r = Some (s1, r1) ∧
    points_of s1 r1 = Some pts ∧
    first_arity s1 r1 = Some k ∧
    Forall (λ dp, k ≤ length (Variables dp)) pts ∧
    is_observation_vector pts observed ∧
    is_design_matrix pts k design ∧
    let n := k + 1 in
    let R := (QR design).2 in
    let qty := (Times (Transpose (QR design).1) observed).1 in
    size (CoeffMap r') = n ∧
    ∀ i, i < n →
      CoeffMap r' !! Z.of_nat i = Some (Coeff r' (Z.of_nat i)) ∧
      row_solved qty R n (λ j, Coeff r' (Z.of_nat j)) i.
Proof.
  apply Run_fit in Hrun
    as (s1 & r1 & k & [o v] & c & r2 & Hi & Hh & Hc & Hk & Hge & Hm & Ht & Hb
        & Ho & Hp & pts' & Hpts' & Hr').
  assert (CoeffMap r' = CoeffMap r2) as Hmap by (by subst r').
  assert (∀ z, Coeff r' z = Coeff r2 z) as Hco by (by subst r').
  clear Hr'.
  apply build_design_spec in Hm as (pts & Hpts & Hall & Hobs & Hdes).
  simpl in *.
  assert (Cols v = k + 1) as Hcols by apply Hdes.
  rewrite Hcols in Hb.
  destruct (backsub_spec (Times (Transpose (QR v).1) o).1 (QR v).2 (k + 1))
    as (c0 & Hb0 & Hlen & Hrows).
  rewrite Hb in Hb0. injection Hb0 as <-.
  apply output_results_spec in Ho as (Hsize & _ & Hlook & Hcoeff).
  exists s1, r1, pts, k, o, v. split_and!; try done.
  { simpl. congruence. }
  intros i Hi'. simpl. split.
  - rewrite Hmap, Hco, Hlook, Hcoeff by lia. unfold at_index.
    destruct (lookup_lt_is_Some_2 c i) as [x ->]; [lia|done].
  - unfold row_solved.
    rewrite (minus_terms_ext _ (at_index c))
      by (intros j Hj; rewrite Hco; apply Hcoeff; lia).
    rewrite Hco, Hcoeff by lia. by apply Hrows.
Qed.

(** Every stage of [Run] goes through when the points are there, wide
    enough, and the collaborators do not fail. *)
Lemma Run_fit_total s r logOutput s1 r1 pts k
    (Hinit : Initialised r = true)
    (Hfresh : HasRun r = false)
    (Hcross : applyCrosses s r = Some (s1, r1))
    (Hpts : points_of s1 r1 = Some pts)
    (Harity : first_arity s1 r1 = Some k)
    (Hall : Forall (λ dp, k ≤ length (Variables dp)) pts)
    (Hsize : k + 1 ≤ length pts)
    (Hagain : Forall (λ dp, is_Some (apply_crosses_to (Crosses r)
                                       (Variables dp))) pts)
    (Htimes : ∀ m, build_design s1 r1 (length (Data r1)) k = Some m →
                   (Times (Transpose (QR m.2).1) m.1).2 = None) :
  ∃ s' r' c r2,
    Run s r logOutput = Some (s', r', None) ∧
    length c = k + 1 ∧
    output_results logOutput c (set_HasRun true r1) = Some r2 ∧
    CoeffMap r' = CoeffMap r2 ∧ Crosses r' = Crosses r ∧
    Data r' = Data r1 ∧ Initialised r' = true ∧
    inputs_of s' = inputs_of s1.
Proof.
  assert (length pts = length (Data r1)) as Hlen.
  { apply mapM_Some, Forall2_length in Hpts. done. }
  destruct (fill_rows_total s1 k (Data r1) 0
              (Zeros (length (Data r1)) 1, Zeros (length (Data r1)) (k + 1))
              pts Hpts Hall) as [m Hm].
  rewrite <- build_design_rows in Hm.
  pose proof (Htimes m Hm) as Ht.
  pose proof Hm as Hdes.
  apply build_design_spec in Hdes as (pts0 & _ & _ & _ & Hdes).
  assert (Cols m.2 = k + 1) as Hcols by apply Hdes.
  destruct (backsub_spec (Times (Transpose (QR m.2).1) m.1).1 (QR m.2).2
              (Cols m.2)) as (c & Hb & Hclen & _).
  destruct (output_results_total logOutput c (set_HasRun true r1))
    as [r2 Ho].
  pose proof (applyCrosses_model _ _ _ _ Hcross) as (nm & Hr1).
  pose proof (output_results_model _ _ _ _ Ho) as (cm & f & Hr2).
  assert (Initialised r2 = true ∧ Crosses r2 = Crosses r ∧
          Data r2 = Data r1) as (Hi2 & Hc2 & Hd2).
  { subst r2 r1. done. }
  assert (first_arity s1 r2 = Some k) as Hk2.
  { unfold first_arity in *. by rewrite Hd2. }
  destruct (predict_all_total r2 k (Data r2) s1 Hi2 Hk2) as [s2 Hp].
  { intros p Hp. apply list_elem_of_lookup in Hp as [i Hp].
    rewrite Hd2 in Hp. apply mapM_Some in Hpts.
    destruct (Forall2_lookup_l _ _ _ _ _ Hpts Hp) as (dp & Hdp & Hsp).
    exists dp. rewrite Hc2. split_and!; [done|..].
    - eapply Forall_lookup_1 in Hall; done.
    - eapply Forall_lookup_1 in Hagain; done. }
  rewrite <- calcPredicted_points in Hp.
  pose proof Hp as Hin. rewrite calcPredicted_points in Hin.
  apply predict_all_spec in Hin as (Hin & _ & _).
  destruct (points_of_inputs s1 s2 r1 pts Hin Hpts) as (pts2 & Hpts2 & _).
  assert (points_of s2 r2 = Some pts2) as Hpts2'.
  { unfold points_of in *. by rewrite Hd2. }
  eexists s2, _, c, r2. split_and!; [|lia|done|..|done].
  - apply Run_paths. eapply path_fit; try done; [lia|].
    rewrite calcVariance_points, Hpts2'. reflexivity.
  - done.
  - done.
  - done.
  - done.
Qed.


End FitWithContract.

(** ** The stand-in collaborators honour the contract *)

Module RefLibFacts.
Import RefLib.

#[export] Instance contract : MatrixContract (H := lib).
Proof.
  split; try done.
  - intros m i j v _ _. simpl. unfold fset. simpl.
    by rewrite decide_True.
  - intros m i j i' j' v _ _ _ _ Hne. simpl. unfold fset. simpl.
    rewrite decide_False; [done|]. intros [-> ->]. done.
Qed.

(** The product of the transposed Q with the observation vector is always
    defined: Q has as many rows as the design matrix, which has as many as
    the observation vector. *)
Lemma times_defined (s : list DataPoint) r k m :
  build_design s r (length (Data r)) k = Some m →
  (Times (Transpose (QR m.2).1) m.1).2 = None.
Proof.
  intros Hm. apply build_design_spec in Hm as (pts & _ & _ & Ho & Hd).
  destruct Ho as (Hro & _). destruct Hd as (Hrd & _).
  simpl in *. unfold ftimes. simpl.
  rewrite decide_True; [done|]. congruence.
Qed.

End RefLibFacts.

(** ** The statements at sample inputs *)

Section Samples.
Import RefLib RefLibFacts.

Lemma Run_wide_model :
  Run wide_store tight_model false
    = Some (wide_store, set_HasRun true tight_model, Some ErrTooManyVars).
Proof. vm_compute. reflexivity. Qed.

Lemma Run_tight_crossed :
  ∃ s' r',
    Run tight_store (AddCross tight_model (PowCross 0 2)) false
      = Some (s', r', Some ErrTooManyVars).
Proof.
  eexists _, _. apply Run_paths.
  eapply path_too_many; [reflexivity..|simpl; lia].
Qed.

(** The model runs the package's cross test as the Go code does. *)
Example cross_test_passes : cross_test lib = true.
Proof. vm_compute. reflexivity. Qed.

Lemma square_crossed :
  applyCrosses square_store square_model
    = Some (square_crossed_store, square_crossed_model).
Proof. vm_compute. reflexivity. Qed.

Lemma Run_square_model :
  ∃ s' r', Run square_store square_model false = Some (s', r', None).
Proof.
  edestruct (Run_fit_total square_store square_model false
               square_crossed_store square_crossed_model
               square_crossed_store 2)
    as (s' & r' & c & r2 & Hrun & _); [..|by exists s', r'].
  - reflexivity.
  - reflexivity.
  - exact square_crossed.
  - reflexivity.
  - reflexivity.
  - repeat (apply Forall_cons_2; [simpl; lia|]). apply Forall_nil_2.
  - simpl. lia.
  - repeat (apply Forall_cons_2; [eexists; reflexivity|]).
    apply Forall_nil_2.
  - intros m Hm. exact (times_defined _ _ _ _ Hm).
Qed.

(** C1 fails on a model that is not initialised: [Run] on
    [new(Regression)] returns the not-enough-data error, and so does the
    second call. *)
Lemma Run_twice_on_empty_model :
  ∃ s1 r1,
    Run [] new_Regression false = Some (s1, r1, Some ErrNotEnoughData) ∧
    Run s1 r1 false = Some (s1, r1, Some ErrNotEnoughData) ∧
    Run s1 r1 false ≠ Some (s1, r1, Some ErrRegressionRun).
Proof. exists [], new_Regression. split_and!; [done|done|discriminate]. Qed.

Lemma Run_second_call_sample :
  Run wide_store tight_model false
    = Some (wide_store, set_HasRun true tight_model, Some ErrTooManyVars) ∧
  ∀ lo, Run wide_store (set_HasRun true tight_model) lo
          = Some (wide_store, set_HasRun true tight_model,
                  Some ErrRegressionRun).
Proof.
  split; [exact Run_wide_model|].
  exact (proj1 (Run_second_call_already_run wide_store tight_model false
                  _ _ _ eq_refl Run_wide_model)).
Defined.

Lemma Train_three_sample :
  Initialised (Train new_Regression [0; 1]) = false ∧
  Initialised (Train (Train new_Regression [0; 1]) [2]) = true.
Proof.
  destruct Train_sets_initialised_at_three as (_ & Htrain & _).
  rewrite !Htrain. done.
Defined.


(** C10 fails on a vector with an infinite entry, where the sum is NaN, and
    on a vector shorter than the arity of the first point, where the call
    panics. *)
Lemma Predict_before_fit_not_zero :
  Initialised tight_model = true ∧ CoeffMap tight_model = ∅ ∧
  (∃ x, Predict tight_store tight_model [infinity; 1%float] = Some (x, None) ∧
        is_nan x = true ∧ x ≠ 0%float) ∧
  Predict tight_store tight_model [1%float] = None.
Proof.
  split_and!; [done|done| |done].
  exists nan. split_and!; [by vm_compute|done|]. intros Heq.
  assert (is_nan nan = is_nan 0) as Hnan by by rewrite Heq.
  vm_compute in Hnan. discriminate.
Qed.

Lemma Predict_before_fit_sample :
  Predict tight_store tight_model [1.5; -2]%float = Some (0%float, None).
Proof.
  refine (proj2 (Predict_before_fit_is_zero tight_store tight_model
                   [1.5; -2]%float [1.5; -2]%float 2
                   eq_refl eq_refl eq_refl eq_refl _)).
  intros [|[|j]] Hj; [eexists; split; reflexivity..|lia].
Defined.


Lemma MakeDataPoints_sample :
  MakeDataPoints [] sample_table 1
    = Some (map (row_point 1) sample_table, [0; 1; 2]) ∧
  perverseMakeDataPoints [] sample_table 1
    = MakeDataPoints [] sample_table 1.
Proof.
  refine (MakeDataPoints_rows [] sample_table 4 1 _ _ _);
    [done|repeat constructor|lia].
Defined.



Lemma Run_back_substitution_sample :
  ∃ s' r',
    Run square_store square_model false = Some (s', r', None) ∧
    size (CoeffMap r') = 3.
Proof.
  destruct Run_square_model as (s' & r' & Hrun).
  exists s', r'. split; [exact Hrun|].
  destruct (Run_back_substitution _ _ _ _ _ Hrun)
    as (s1 & r1 & pts & k & o & d & Hc & _ & Hk & _ & _ & _ & Hsize & _).
  rewrite square_crossed in Hc. injection Hc as <- <-.
  injection Hk as <-. exact Hsize.
Defined.


End Samples.

(** * Further properties of the package *)

(** ** Names *)

Section Naming.

(** X1. Setting a name and reading it back: a non-empty name is returned as it
    is, the empty name reads as the synthesized ["X<i>"]; the other indices
    and the observed name are not disturbed, and neither is any variable
    name by [SetObserved]. *)
Theorem SetVar_GetVar r i name :
  GetVar (SetVar r i name) i
    = (if decide (name = "") then "X" +:+ Itoa i else name) ∧
  (∀ j, j ≠ i → GetVar (SetVar r i name) j = GetVar r j) ∧
  GetObserved (SetVar r i name) = GetObserved r ∧
  (∀ n j, GetVar (SetObserved r n) j = GetVar r j) ∧
  (∀ j, Vars (Names r) !! j = None → GetVar r j = "X" +:+ Itoa j).
Proof.
  split_and!.
  - unfold GetVar, SetVar. simpl. rewrite lookup_insert_eq. simpl.
    repeat case_decide; done.
  - intros j Hj. unfold GetVar, SetVar. simpl.
    rewrite lookup_insert_ne by done.
    destruct (decide (size (Vars (Names r)) = 0)) as [Hsize|]; [|done].
    apply map_size_empty_iff in Hsize. by rewrite Hsize.
  - done.
  - done.
  - intros j Hj. unfold GetVar. by rewrite Hj.
Qed.

End Naming.

(** ** Training and registering crosses *)

Section Accumulation.
Context `{Lib : Collaborators}.

(** X2. Training in two batches is training with the two batches at once, and
    training never clears the initialised flag. *)
Theorem Train_Train r d1 d2 :
  Train (Train r d1) d2 = Train r (d1 ++ d2) ∧
  (Initialised r = true → Initialised (Train r d1) = true).
Proof.
  split.
  - unfold Train. simpl.
    destruct (decide (2 < length (Data r ++ d1))) as [H1|H1]; simpl;
      rewrite <- app_assoc;
      destruct (decide (2 < length (Data r ++ d1 ++ d2))) as [H2|H2];
      simpl; try done.
    rewrite !length_app in *. lia.
  - apply Train_flags.
Qed.

Lemma apply_crosses_to_app cs1 cs2 vars :
  apply_crosses_to (cs1 ++ cs2) vars
  = apply_crosses_to cs1 vars ≫= apply_crosses_to cs2.
Proof.
  unfold apply_crosses_to. revert vars.
  induction cs1 as [|c cs1 IH]; intros vars; simpl; [done|].
  destruct (cross_step c vars); simpl; [apply IH|done].
Qed.

(** X3. A cross registered later is applied after the ones registered before
    and reads what they derived; whatever the crosses are, they leave the
    given entries in place and only add entries after them. *)
Theorem AddCross_applied_last r cross vars :
  apply_crosses_to (Crosses (AddCross r cross)) vars
    = (vars' ← apply_crosses_to (Crosses r) vars;
       extra ← Calculate cross vars';
       Some (vars' ++ extra)) ∧
  (∀ vars', apply_crosses_to (Crosses r) vars = Some vars' →
     length vars ≤ length vars' ∧ take (length vars) vars' = vars).
Proof.
  split.
  - simpl. rewrite apply_crosses_to_app.
    destruct (apply_crosses_to (Crosses r) vars) as [v|]; simpl; [|done].
    unfold apply_crosses_to, cross_step. simpl.
    by destruct (Calculate cross v).
  - intros vars' H. apply apply_crosses_to_prefix in H as [extra ->].
    rewrite length_app. split; [lia|]. by rewrite take_app_length.
Qed.

(** X4. Along any sequence of calls no point and no cross is ever removed or
    reordered, the initialised flag is never cleared, the store never
    shrinks, and the last-trained stamp is never written. *)
Theorem calls_only_add ops s r s' r' :
  exec_ops ops (s, r) = Some (s', r') →
  Data r `prefix_of` Data r' ∧
  Crosses r `prefix_of` Crosses r' ∧
  (Initialised r = true → Initialised r' = true) ∧
  length s ≤ length s' ∧
  LastTrained r' = LastTrained r.
Proof.
  intros Hops.
  eapply (for_each_inv
    (λ t, Data r `prefix_of` Data t.2 ∧ Crosses r `prefix_of` Crosses t.2 ∧
          (Initialised r = true → Initialised t.2 = true) ∧
          length s ≤ length t.1 ∧ LastTrained t.2 = LastTrained r))
    in Hops; [done| |by simpl].
  intros o [t m] [t' m'] _ (Hd & Hc & Hi & Hl & Ht) Hop. simpl in *.
  destruct o; simpl in Hop.
  - injection Hop as <- <-. split_and!; try done.
    rewrite length_app. simpl. lia.
  - injection Hop as <- <-. unfold Train. simpl.
    assert (Data r `prefix_of` Data m ++ d) as Hd'
      by (etrans; [done|by apply prefix_app_r]).
    case_decide; simpl; split_and!; done.
  - injection Hop as <- <-. simpl. split_and!; try done.
    etrans; [done|]. by apply prefix_app_r.
  - apply bind_Some in Hop as (? & _ & Hop). by injection Hop as <- <-.
  - apply bind_Some in Hop as ([[s1 r1] e1] & Hrun & Hop).
    injection Hop as <- <-. apply Run_paths in Hrun.
    assert (LastTrained r1 = LastTrained m ∧ length s1 = length t)
      as [Hlt Hls].
    { destruct Hrun as [| |????? Hc'|??????? Hc'
                       |?????????? Hc' ????? Ho Hp Hv]; try done.
      - pose proof Hc' as Hm. apply applyCrosses_model in Hm as (nm & ->).
        split; [done|]. unfold applyCrosses in Hc'.
        repeat (apply bind_Some in Hc' as (? & ? & Hc')). simplify_eq.
        by eapply cross_points_length.
      - pose proof Hc' as Hm. apply applyCrosses_model in Hm as (nm & ->).
        split; [done|]. unfold applyCrosses in Hc'.
        repeat (apply bind_Some in Hc' as (? & ? & Hc')). simplify_eq.
        by eapply cross_points_length.
      - pose proof Hc' as Hm. apply applyCrosses_model in Hm as (nm & ->).
        apply output_results_model in Ho as (cm & f & ->).
        apply calcVariance_model in Hv as (vo & vp & ->).
        split; [done|].
        rewrite calcPredicted_points in Hp.
        apply predict_all_spec in Hp as (Hin & _).
        apply (f_equal length) in Hin. unfold inputs_of in Hin.
        rewrite !length_fmap in Hin. rewrite Hin.
        unfold applyCrosses in Hc'.
        repeat (apply bind_Some in Hc' as (? & ? & Hc')). simplify_eq.
        by eapply cross_points_length. }
    apply run_path_frame in Hrun as (-> & -> & ->).
    split_and!; try done; [lia|congruence].
  - injection Hop as <- <-. done.
  - injection Hop as <- <-. done.
  - injection Hop as <- <-. done.
Qed.

End Accumulation.

(** ** What a call of [Run] leaves alone *)

Section RunFrames.
Context `{Lib : Collaborators}.

Lemma appended_refl (s : list DataPoint) : appended s s.
Proof.
  split; [done|]. intros p dp Hp. exists [].
  rewrite app_nil_r, Hp. by destruct dp.
Qed.

Lemma appended_trans (s t u : list DataPoint) :
  appended s t → appended t u → appended s u.
Proof.
  intros [Hl1 H1] [Hl2 H2]. split; [congruence|].
  intros p dp Hp. destruct (H1 p dp Hp) as [e1 Ht].
  destruct (H2 p _ Ht) as [e2 Hu]. exists (e1 ++ e2).
  rewrite Hu. simpl. by rewrite app_assoc.
Qed.

Lemma appended_insert (s : list DataPoint) p dp extra :
  s !! p = Some dp →
  appended s (<[p := set_Variables (Variables dp ++ extra) dp]> s).
Proof.
  intros Hp. split; [by rewrite length_insert|].
  intros q dq Hq. destruct (decide (q = p)) as [->|Hne].
  - rewrite Hp in Hq. injection Hq as <-. exists extra.
    apply list_lookup_insert_eq. by eapply lookup_lt_Some.
  - exists []. rewrite list_lookup_insert_ne by done.
    rewrite app_nil_r, Hq. by destruct dq.
Qed.

Lemma appended_grown (s t : list DataPoint) : appended s t → grown s t.
Proof.
  intros [Hl H]. split; [done|]. intros p dp Hp.
  destruct (H p dp Hp) as [extra Ht]. by eexists _, extra.
Qed.

Lemma grown_inputs (s t u : list DataPoint) :
  grown s t → inputs_of u = inputs_of t → grown s u.
Proof.
  intros [Hl H] Hin. split.
  - rewrite <- Hl. apply (f_equal length) in Hin.
    unfold inputs_of in Hin. by rewrite !length_fmap in Hin.
  - intros p dp Hp. destruct (H p dp Hp) as (dp' & extra & Ht & Ho & Hv).
    destruct (inputs_of_lookup_Some t u p dp' Hin Ht) as (du & Hu & Ho' & Hv').
    exists du, extra. split_and!; congruence.
Qed.

Lemma cross_points_appended crosses points (s s' : list DataPoint) :
  cross_points crosses points s = Some s' →
  appended s s' ∧ ∀ p, p ∉ points → s' !! p = s !! p.
Proof.
  intros H.
  eapply (for_each_inv
    (λ t, appended s t ∧ ∀ p, p ∉ points → t !! p = s !! p)) in H;
    [done| |split; [apply appended_refl|done]].
  intros x t t' Hx [Ht Hout] Hstep.
  apply cross_point_loop in Hstep as [[_ ->]|(dp & vars & Hdp & Hv & ->)];
    [done|].
  apply apply_crosses_to_prefix in Hv as [extra ->]. split.
  - eapply appended_trans; [done|]. by apply appended_insert.
  - intros p Hp. rewrite list_lookup_insert_ne by (intros ->; done).
    by apply Hout.
Qed.

Lemma applyCrosses_store s r s1 r1 :
  applyCrosses s r = Some (s1, r1) →
  cross_points (Crosses r) (Data r) s = Some s1.
Proof.
  unfold applyCrosses. intros H.
  apply bind_Some in H as (p0 & _ & H).
  apply bind_Some in H as (dp0 & _ & H).
  apply bind_Some in H as (t & Ht & H).
  apply bind_Some in H as (st & _ & H). by simplify_eq.
Qed.




(** X8. After a fit the coefficient map holds exactly the keys from 0 up to its
    size, whatever it held before, and [Coeff] is 0 at every other index. *)
Theorem Run_coefficient_keys s r logOutput s' r'
    (Hrun : Run s r logOutput = Some (s', r', None)) :
  ∀ z : Z,
    (is_Some (CoeffMap r' !! z) ↔ (0 ≤ z < Z.of_nat (size (CoeffMap r')))%Z) ∧
    ((z < 0 ∨ Z.of_nat (size (CoeffMap r')) ≤ z)%Z → Coeff r' z = 0%float).
Proof.
  apply Run_fit in Hrun
    as (s1 & r1 & k & m & c & r2 & _ & _ & _ & _ & _ & _ & _ & _ & Ho & _
        & pts & _ & ->).
  apply output_results_spec in Ho as (Hsize & Hkeys & _).
  intros z. simpl. rewrite Hsize. split; [apply Hkeys|].
  intros Hz. unfold Coeff. simpl. case_decide; [done|].
  assert (CoeffMap r2 !! z = None) as ->; [|done].
  apply eq_None_not_Some. rewrite Hkeys. lia.
Qed.

End RunFrames.

(** ** Panics *)

Section Panics.
Context `{Lib : Collaborators}.

Lemma for_up_fails {St} (body : nat → St → option St) n lo i s :
  lo ≤ i < lo + n → (∀ t, body i t = None) → for_up n lo body s = None.
Proof.
  revert lo s. induction n as [|n IH]; intros lo s Hi Hbody; simpl; [lia|].
  destruct (decide (i = lo)) as [->|Hne]; [by rewrite Hbody|].
  destruct (body lo s); simpl; [|done]. apply IH; [lia|done].
Qed.

(** X9. On an initialised model [Predict] panics in three cases and no other: a
    cross panics, the model has no first point to read the arity from, or
    the vector, once the crosses are applied, has fewer entries than the
    first point has variables. *)
Theorem Predict_panics s r vars (Hinit : Initialised r = true) :
  Predict s r vars = None ↔
    apply_crosses_to (Crosses r) vars = None ∨
    first_arity s r = None ∨
    ∃ vars' k, apply_crosses_to (Crosses r) vars = Some vars' ∧
      first_arity s r = Some k ∧ length vars' < k.
Proof.
  unfold Predict. rewrite Hinit. simpl.
  destruct (apply_crosses_to (Crosses r) vars) as [vars'|] eqn:Hc; simpl;
    [|by split; [left|]].
  destruct (first_arity s r) as [k|] eqn:Hk; simpl;
    [|by split; [right; left|]].
  destruct (decide (k ≤ length vars')) as [Hle|Hlt].
  - rewrite predict_loop by done. simpl. split; [done|].
    intros [|[|(v & k' & ? & ? & ?)]]; simplify_eq. lia.
  - assert (for_range 1 (k + 1)
      (λ j p, x ← vars' !! (j - 1); Some (p + Coeff r (Z.of_nat j) * x)%float)
      (Coeff r 0) = None) as ->.
    { apply (for_up_fails _ _ _ (S (length vars'))); [lia|].
      intros t. simpl. rewrite Nat.sub_0_r.
      by rewrite (lookup_ge_None_2 vars' (length vars')). }
    simpl. split; [|done]. intros _. right. right.
    exists vars', k. split_and!; [done|done|lia].
Qed.

Lemma fill_cells_arity dp i k v v' :
  for_range 0 (k + 1) (fill_cell dp i) v = Some v' →
  k ≤ length (Variables dp).
Proof.
  intros H.
  eapply (for_range_inv (λ j _, j ≤ length (Variables dp) + 1)) in H;
    [lia|lia| |lia].
  intros j w w' Hj Hinv Hstep. unfold fill_cell in Hstep.
  case_decide; [lia|].
  apply bind_Some in Hstep as (x & Hx & _).
  apply lookup_lt_Some in Hx. lia.
Qed.

Lemma fill_rows_arity (s : list DataPoint) k l i0 m m' :
  for_each_i i0 l (fill_point s k) m = Some m' →
  ∀ p, p ∈ l → ∃ dp, s !! p = Some dp ∧ k ≤ length (Variables dp).
Proof.
  revert i0 m. induction l as [|q l IH]; intros i0 m H p Hp.
  { by apply elem_of_nil in Hp. }
  rewrite for_each_i_cons in H.
  apply bind_Some in H as (m1 & Hstep & H).
  apply elem_of_cons in Hp as [->|Hp]; [|by eapply IH].
  unfold fill_point in Hstep.
  apply bind_Some in Hstep as (dp & Hdp & Hstep).
  apply bind_Some in Hstep as (w & Hcells & _).
  exists dp. split; [done|]. by eapply fill_cells_arity.
Qed.

(** The design matrix can only be built when every registered point is
    there and has at least the [k] variables. *)
Lemma build_design_arity s r k m :
  build_design s r (length (Data r)) k = Some m →
  ∀ p, p ∈ Data r → ∃ dp, s !! p = Some dp ∧ k ≤ length (Variables dp).
Proof. rewrite build_design_rows. apply fill_rows_arity. Qed.

(** X10. There is no check of arity: on an initialised model that has not run,
    [Run] panics when the data slice is empty, and it panics when, past the
    size test, some registered point is missing or has fewer variables than
    the first one. *)
Theorem Run_panics_on_short_point s r logOutput
    (Hinit : Initialised r = true) (Hfresh : HasRun r = false) :
  (Data r = [] → Run s r logOutput = None) ∧
  (∀ s1 r1 k p,
     applyCrosses s r = Some (s1, r1) →
     first_arity s1 r1 = Some k →
     k + 1 ≤ length (Data r) →
     p ∈ Data r →
     (∀ dp, s1 !! p = Some dp → length (Variables dp) < k) →
     Run s r logOutput = None).
Proof.
  split.
  - intros Hnil. unfold Run, applyCrosses.
    rewrite Hinit, Hfresh, Hnil. done.
  - intros s1 r1 k p Hc Hk Hsize Hp Hshort.
    destruct (Run s r logOutput) as [[[s' r'] e]|] eqn:Hrun; [|done].
    exfalso. apply Run_paths in Hrun.
    pose proof (applyCrosses_model _ _ _ _ Hc) as (nm & Hr1).
    assert (Data r1 = Data r) as Hd by (by subst r1).
    inversion Hrun as [| |s2 r2 k2 ? ? Hc2 Hk2 Hlt
                      |s2 r2 k2 m le ? ? Hc2 Hk2 ? Hm
                      |s2 r2 k2 m c r3 s3 r4 ? ? Hc2 Hk2 ? Hm];
      subst; try congruence.
    + rewrite Hc in Hc2. injection Hc2 as <- <-.
      rewrite Hk in Hk2. injection Hk2 as <-. simpl in *. lia.
    + rewrite Hc in Hc2. injection Hc2 as <- <-.
      rewrite Hk in Hk2. injection Hk2 as <-.
      destruct (build_design_arity _ _ _ _ Hm p) as (dp & Hdp & Hlen);
        [done|]. specialize (Hshort dp Hdp). lia.
    + rewrite Hc in Hc2. injection Hc2 as <- <-.
      rewrite Hk in Hk2. injection Hk2 as <-.
      destruct (build_design_arity _ _ _ _ Hm p) as (dp & Hdp & Hlen);
        [done|]. specialize (Hshort dp Hdp). lia.
Qed.

End Panics.

(** ** Tables that cannot be converted *)

Section TableEdges.

(** X11. [MakeDataPoints] on a table with no row returns no point for column 0
    and panics for any other column; on a table with rows, all of one width,
    it panics for a column that is negative or not below the width. *)
Theorem MakeDataPoints_edges (s : list DataPoint) :
  MakeDataPoints s [] 0 = Some (s, []) ∧
  (∀ obsIndex, obsIndex ≠ 0%Z → MakeDataPoints s [] obsIndex = None) ∧
  (∀ a w obsIndex,
     a ≠ [] → Forall (λ row, length row = w) a →
     (obsIndex < 0 ∨ Z.of_nat w ≤ obsIndex)%Z →
     MakeDataPoints s a obsIndex = None).
Proof.
  split_and!.
  - done.
  - intros obsIndex Hne. unfold MakeDataPoints.
    destruct (decide (obsIndex = 0%Z)); [done|reflexivity].
  - intros a w obsIndex Ha Hrect Hout.
    destruct a as [|a0 a']; [done|].
    apply Forall_cons in Hrect as [Ha0 _].
    unfold MakeDataPoints.
    destruct (decide (obsIndex = 0%Z)) as [->|Hnz]; simpl.
    + assert (w = 0) as -> by lia.
      apply nil_length_inv in Ha0 as ->. done.
    + rewrite Ha0. case_bool_decide as Hlast.
      * unfold perverseMakeDataPoints. simpl.
        assert (perverse_row obsIndex a0 (s, []) = None) as ->; [|done].
        unfold perverse_row, index. case_decide as Hpos; [|done].
        rewrite lookup_ge_None_2 by lia. done.
      * assert (last_row (Z.of_nat w - 1) a0 (s, []) = None) as ->; [|done].
        unfold last_row, index. rewrite decide_False; [done|lia].
Qed.

End TableEdges.

(** ** Prediction on the training vectors *)

Section TrainingVectors.
Context `{Lib : Collaborators}.

Lemma prediction_sum_app r k (vars extra : list float) :
  k ≤ length vars →
  prediction_sum r k (vars ++ extra) = prediction_sum r k vars.
Proof.
  intros Hk. unfold prediction_sum.
  assert (∀ l acc, (∀ i, i ∈ l → 1 ≤ i ≤ k) →
    fold_left
      (λ p i, (p + Coeff r (Z.of_nat i)
                   * default 0 ((vars ++ extra) !! (i - 1)%nat))%float) l acc
    = fold_left
      (λ p i, (p + Coeff r (Z.of_nat i)
                   * default 0 (vars !! (i - 1)%nat))%float) l acc) as Hfold.
  { induction l as [|i l IH]; intros acc Hl; simpl; [done|].
    assert (1 ≤ i ≤ k) by (apply Hl; by left).
    rewrite lookup_app_l by lia. apply IH.
    intros j Hj. apply Hl. by right. }
  apply Hfold. intros i Hi. apply elem_of_seq in Hi. lia.
Qed.

Lemma Predict_inv s r vars res :
  Initialised r = true →
  Predict s r vars = Some res →
  ∃ vars' k, apply_crosses_to (Crosses r) vars = Some vars' ∧
    first_arity s r = Some k ∧ k ≤ length vars' ∧
    res = (prediction_sum r k vars', None).
Proof.
  intros Hi. unfold Predict. rewrite Hi. simpl. intros H.
  apply bind_Some in H as (vars' & Hc & H).
  apply bind_Some in H as (k & Hk & H).
  apply bind_Some in H as (p & Hloop & H). injection H as <-.
  exists vars', k.
  destruct (decide (k ≤ length vars')) as [Hle|Hlt].
  - rewrite predict_loop in Hloop by done. injection Hloop as <-. done.
  - unfold for_range in Hloop.
    rewrite (for_up_fails _ _ _ (S (length vars'))) in Hloop; [done|lia|].
    intros t. simpl. rewrite Nat.sub_0_r.
    by rewrite (lookup_ge_None_2 vars' (length vars')).
Qed.


End TrainingVectors.

(** ** What [Run] does not read *)

Section Unread.
Context `{Lib : Collaborators}.

Lemma applyCrosses_threshold s r t :
  applyCrosses s (set_Threshold t r)
  = (λ x, (x.1, set_Threshold t x.2)) <$> applyCrosses s r.
Proof.
  unfold applyCrosses. simpl.
  destruct (Data r !! 0) as [p0|]; simpl; [|done].
  destruct (s !! p0) as [dp0|]; simpl; [|done].
  destruct (cross_points _ _ _) as [s1|]; simpl; [|done].
  destruct (for_each _ _ _) as [st|]; simpl; done.
Qed.

Lemma output_loop_threshold logOutput c i0 r t :
  for_each_i i0 c (output_step logOutput) (set_Threshold t r)
  = set_Threshold t <$> for_each_i i0 c (output_step logOutput) r.
Proof.
  revert i0 r. induction c as [|x c IH]; intros i0 r; [done|].
  rewrite !for_each_i_cons.
  assert (output_step logOutput i0 x (set_Threshold t r)
    = set_Threshold t <$> output_step logOutput i0 x r) as ->.
  { unfold output_step. destruct logOutput; [case_decide|]; done. }
  destruct (output_step logOutput i0 x r) as [r1|]; simpl; [apply IH|done].
Qed.

Lemma calcVariance_threshold s r t :
  calcVariance s (set_Threshold t r)
  = set_Threshold t <$> calcVariance s r.
Proof.
  rewrite !calcVariance_points.
  change (points_of s (set_Threshold t r)) with (points_of s r).
  by destruct (points_of s r).
Qed.

Lemma run_path_threshold s r t logOutput s' r' e :
  run_path s r logOutput s' r' e →
  run_path s (set_Threshold t r) logOutput s' (set_Threshold t r') e.
Proof.
  intros [Hi|Hi Hh|s1 r1 k Hi Hh Hc Hk Hlt
         |s1 r1 k m le Hi Hh Hc Hk Hge Hm Ht
         |s1 r1 k m c r2 s2 r3 Hi Hh Hc Hk Hge Hm Ht Hb Ho Hp Hv].
  - by apply path_not_enough.
  - by apply path_already.
  - apply (path_too_many _ _ _ s1 (set_Threshold t r1) k); try done.
    by rewrite applyCrosses_threshold, Hc.
  - apply (path_matrix _ _ _ s1 (set_Threshold t r1) k m le); try done.
    by rewrite applyCrosses_threshold, Hc.
  - apply (path_fit _ _ _ s1 (set_Threshold t r1) k m c
             (set_Threshold t r2) s2 (set_Threshold t r3)); try done.
    + by rewrite applyCrosses_threshold, Hc.
    + unfold output_results in *.
      change (set_CoeffMap ∅ (set_HasRun true (set_Threshold t r1)))
        with (set_Threshold t (set_CoeffMap ∅ (set_HasRun true r1))).
      by rewrite output_loop_threshold, Ho.
    + by rewrite calcVariance_threshold, Hv.
Qed.

(** X13. The retrain threshold plays no part in a fit: [Run] on a model with
    another threshold returns, or panics, as on the model itself, and keeps
    the threshold that was set. *)
Theorem Run_ignores_threshold s r thres logOutput :
  Run s (SetThreshold r thres) logOutput
  = (λ res, (res.1.1, SetThreshold res.1.2 thres, res.2))
      <$> Run s r logOutput.
Proof.
  unfold SetThreshold.
  destruct (Run s r logOutput) as [[[s' r'] e]|] eqn:Hrun; simpl.
  - apply Run_paths. by apply run_path_threshold, Run_paths.
  - destruct (Run s (set_Threshold thres r) logOutput)
      as [[[s' r'] e]|] eqn:Hrun'; [|done].
    apply Run_paths, (run_path_threshold _ _ (Threshold r)) in Hrun'.
    replace (set_Threshold (Threshold r) (set_Threshold thres r)) with r
      in Hrun' by (by destruct r).
    apply Run_paths in Hrun'. congruence.
Qed.

Lemma output_loop_quiet c i0 r f :
  for_each_i i0 c (output_step false) (set_Formula f r)
  = set_Formula f <$> for_each_i i0 c (output_step true) r.
Proof.
  revert i0 r. induction c as [|x c IH]; intros i0 r; [done|].
  rewrite !for_each_i_cons.
  destruct (output_step true i0 x r) as [r1|] eqn:H1; [|done].
  assert (output_step false i0 x (set_Formula f r)
    = Some (set_Formula f r1)) as ->.
  { unfold output_step in *. injection H1 as <-. by case_decide. }
  simpl. apply IH.
Qed.

Lemma output_results_quiet c r r2 :
  output_results true c r = Some r2 →
  output_results false c r = Some (set_Formula (Formula r) r2).
Proof.
  unfold output_results. intros H.
  replace (set_CoeffMap ∅ r)
    with (set_Formula (Formula r) (set_CoeffMap ∅ r)) by (by destruct r).
  by rewrite output_loop_quiet, H.
Qed.

Lemma calcVariance_formula s r f :
  calcVariance s (set_Formula f r) = set_Formula f <$> calcVariance s r.
Proof.
  rewrite !calcVariance_points.
  change (points_of s (set_Formula f r)) with (points_of s r).
  by destruct (points_of s r).
Qed.

Lemma run_path_quiet s r s' r' e :
  run_path s r true s' r' e →
  run_path s r false s' (set_Formula (Formula r) r') e.
Proof.
  intros [Hi|Hi Hh|s1 r1 k Hi Hh Hc Hk Hlt
         |s1 r1 k m le Hi Hh Hc Hk Hge Hm Ht
         |s1 r1 k m c r2 s2 r3 Hi Hh Hc Hk Hge Hm Ht Hb Ho Hp Hv].
  - replace (set_Formula (Formula r) r) with r by (by destruct r).
    by apply path_not_enough.
  - replace (set_Formula (Formula r) r) with r by (by destruct r).
    by apply path_already.
  - pose proof (applyCrosses_model _ _ _ _ Hc) as (nm & Hr1).
    replace (set_Formula (Formula r) (set_HasRun true r1))
      with (set_HasRun true r1) by (subst r1; by destruct r).
    by eapply path_too_many.
  - pose proof (applyCrosses_model _ _ _ _ Hc) as (nm & Hr1).
    replace (set_Formula (Formula r) (set_HasRun true r1))
      with (set_HasRun true r1) by (subst r1; by destruct r).
    by eapply path_matrix.
  - pose proof (applyCrosses_model _ _ _ _ Hc) as (nm & Hr1).
    apply output_results_quiet in Ho.
    replace (Formula (set_HasRun true r1)) with (Formula r) in Ho
      by (by subst r1).
    apply (path_fit _ _ _ s1 r1 k m c (set_Formula (Formula r) r2) s2
             (set_Formula (Formula r) r3)); try done.
    by rewrite calcVariance_formula, Hv.
Qed.

Lemma run_path_loud s r s' r' e :
  run_path s r false s' r' e → ∃ r'', run_path s r true s' r'' e.
Proof.
  intros [Hi|Hi Hh|s1 r1 k Hi Hh Hc Hk Hlt
         |s1 r1 k m le Hi Hh Hc Hk Hge Hm Ht
         |s1 r1 k m c r2 s2 r3 Hi Hh Hc Hk Hge Hm Ht Hb Ho Hp Hv].
  - eexists. by apply path_not_enough.
  - eexists. by apply path_already.
  - eexists. by eapply path_too_many.
  - eexists. by eapply path_matrix.
  - destruct (output_results_total true c (set_HasRun true r1)) as [r2' Ho'].
    pose proof (output_results_quiet _ _ _ Ho') as Hq.
    rewrite Ho in Hq. injection Hq as ->.
    rewrite calcVariance_formula in Hv.
    destruct (calcVariance s2 r2') as [r3'|] eqn:Hv'; [|done].
    eexists. by eapply (path_fit _ _ _ s1 r1 k m c r2' s2 r3').
Qed.

(** X14. The log flag decides about the formula text and nothing else: a call
    without it returns the same store, the same error and the same model as
    the call with it, but for the formula, which it leaves as it was; and it
    panics exactly when the other does. *)
Theorem Run_logOutput_only_formula s r :
  Run s r false
  = (λ res, (res.1.1, set_Formula (Formula r) res.1.2, res.2))
      <$> Run s r true.
Proof.
  destruct (Run s r true) as [[[s' r'] e]|] eqn:Hrun; simpl.
  - apply Run_paths. by apply run_path_quiet, Run_paths.
  - destruct (Run s r false) as [[[s' r'] e]|] eqn:Hrun'; [|done].
    apply Run_paths, run_path_loud in Hrun' as [r'' Hrun'].
    apply Run_paths in Hrun'. congruence.
Qed.

End Unread.

(** ** Points registered more than once, and registration after a fit *)

Section Registration.
Context `{Lib : Collaborators}.

(** X15. The crosses are applied once per registration, not once per point: when
    one pass of the crosses adds [d] entries to any vector, a point that
    the data slice holds [n] times ends [n * d] entries longer. *)
Theorem crosses_once_per_registration crosses d points (s s' : list DataPoint)
    p dp
    (Hpass : ∀ v v', apply_crosses_to crosses v = Some v' →
                     length v' = length v + d)
    (Hrun : cross_points crosses points s = Some s')
    (Hdp : s !! p = Some dp) :
  ∃ dp', s' !! p = Some dp' ∧
    length (Variables dp')
      = length (Variables dp) + length (filter (λ q, q = p) points) * d.
Proof.
  unfold cross_points in Hrun. revert s dp Hrun Hdp.
  induction points as [|q points IH]; intros s dp Hrun Hdp; simpl in Hrun.
  { injection Hrun as <-. exists dp. split; [done|]. simpl. lia. }
  apply bind_Some in Hrun as (t & Hstep & Hrun).
  apply cross_point_loop in Hstep
    as [[-> ->]|(dq & vars & Hdq & Hvars & ->)].
  - assert (d = 0) as ->.
    { specialize (Hpass [] [] eq_refl). simpl in Hpass. lia. }
    destruct (IH _ _ Hrun Hdp) as (dp' & Hdp' & Hlen).
    exists dp'. split; [done|]. lia.
  - apply Hpass in Hvars. rewrite filter_cons.
    destruct (decide (q = p)) as [->|Hne].
    + rewrite Hdp in Hdq. injection Hdq as <-.
      destruct (IH (<[p:=set_Variables vars dp]> s) (set_Variables vars dp)
                  Hrun) as (dp' & Hdp' & Hlen).
      { apply list_lookup_insert_eq. by eapply lookup_lt_Some. }
      exists dp'. split; [done|]. simpl in *. lia.
    + destruct (IH (<[q:=set_Variables vars dq]> s) dp Hrun)
        as (dp' & Hdp' & Hlen).
      { by rewrite list_lookup_insert_ne. }
      exists dp'. split; [done|]. lia.
Qed.

(** X16. Registering after a fit does not move a prediction: more training
    points leave [Predict] as it is, the arity being read from the first
    point, and so does one more cross that does not panic, what it derives
    lying beyond the entries the sum reads. *)
Theorem Predict_after_registration s r vars vars' k
    (Hinit : Initialised r = true)
    (Hcross : apply_crosses_to (Crosses r) vars = Some vars')
    (Harity : first_arity s r = Some k)
    (Hlen : k ≤ length vars') :
  (∀ d, Predict s (Train r d) vars = Predict s r vars) ∧
  (∀ cross, is_Some (Calculate cross vars') →
     Predict s (AddCross r cross) vars = Predict s r vars).
Proof.
  rewrite (Predict_value s r vars vars' k) by done. split.
  - intros d.
    assert (first_arity s (Train r d) = Some k) as Hk.
    { unfold first_arity in *. unfold Train. simpl.
      destruct (Data r) as [|p0 l] eqn:Hd; [done|].
      by case_decide. }
    assert (prediction_sum (Train r d) k vars' = prediction_sum r k vars')
      as <- by (unfold Train; by case_decide).
    apply Predict_value; try done.
    + destruct (Train_flags r d) as [_ H]. by apply H.
    + unfold Train. by case_decide.
  - intros cross [extra Hextra].
    rewrite <- (prediction_sum_app r k vars' extra) by done.
    apply (Predict_value s (AddCross r cross)); try done.
    + simpl. rewrite apply_crosses_to_app, Hcross. simpl.
      unfold apply_crosses_to, cross_step. simpl. by rewrite Hextra.
    + rewrite length_app. lia.
Qed.

End Registration.

(** ** Tables whose rows differ in length *)

Section RaggedTables.

Lemma last_row_long (w : nat) row st :
  0 < w → w ≤ length row →
  last_row (Z.of_nat w - 1) row st
  = Some (push_point (default 0%float (row !! (w - 1))) (take (w - 1) row) st).
Proof.
  intros Hw Hlen. unfold last_row, index, slice_to.
  rewrite decide_True by lia.
  replace (Z.to_nat (Z.of_nat w - 1)) with (w - 1) by lia.
  destruct (lookup_lt_is_Some_2 row (w - 1)) as [x Hx]; [lia|].
  rewrite Hx. simpl. by rewrite decide_True by lia.
Qed.

(** X17. Only the first row is measured.  For column 0 every row with an entry is
    split into its first entry and the rest, whatever the lengths; for the
    last column of the first row, a longer row loses the entries from that
    column on; for any other column every row that reaches the column keeps
    all its other entries. *)
Theorem MakeDataPoints_ragged (s : list DataPoint) (a0 : list float)
    (a : list (list float)) (obsIndex : nat)
    (Hreach : Forall (λ row, obsIndex < length row) (a0 :: a)) :
  (obsIndex = 0 →
   MakeDataPoints s (a0 :: a) 0
     = Some (s ++ map (row_point 0) (a0 :: a),
             seq (length s) (length (a0 :: a)))) ∧
  (obsIndex ≠ 0 → obsIndex = length a0 - 1 →
   MakeDataPoints s (a0 :: a) (Z.of_nat obsIndex)
     = Some (s ++ map (λ row, mkDataPoint (default 0%float (row !! obsIndex))
                                (take obsIndex row) 0%float 0%float)
                    (a0 :: a),
             seq (length s) (length (a0 :: a)))) ∧
  (obsIndex ≠ 0 → obsIndex ≠ length a0 - 1 →
   MakeDataPoints s (a0 :: a) (Z.of_nat obsIndex)
     = Some (s ++ map (row_point obsIndex) (a0 :: a),
             seq (length s) (length (a0 :: a)))).
Proof.
  rewrite Forall_forall in Hreach.
  assert (obsIndex < length a0) as Ha0 by (apply Hreach; left).
  remember (a0 :: a) as tbl eqn:Htbl.
  assert (tbl !! 0 = Some a0) as H0 by (by subst tbl).
  clear Htbl. unfold MakeDataPoints. rewrite H0.
  split_and!.
  - intros ->.
    destruct (decide (0 = 0)%Z) as [_|]; [|done]. simpl.
    rewrite (push_rows (row_point 0)); [done| |done].
    intros row st Hrow. apply first_row_point. by apply Hreach.
  - intros Hnz Hlast.
    destruct (decide (Z.of_nat obsIndex = 0%Z)) as [|_]; [lia|]. simpl.
    rewrite bool_decide_eq_false_2 by lia.
    rewrite (push_rows
      (λ row, mkDataPoint (default 0%float (row !! obsIndex))
                (take obsIndex row) 0%float 0%float)); [done| |done].
    intros row st Hrow. rewrite Hlast.
    apply last_row_long; [lia|]. specialize (Hreach row Hrow). lia.
  - intros Hnz Hlast.
    destruct (decide (Z.of_nat obsIndex = 0%Z)) as [|_]; [lia|]. simpl.
    rewrite bool_decide_eq_true_2 by lia.
    unfold perverseMakeDataPoints.
    rewrite (push_rows (row_point obsIndex)); [done| |done].
    intros row st Hrow. apply perverse_row_point. by apply Hreach.
Qed.

End RaggedTables.

(** ** The further properties at sample inputs *)

Section MoreSamples.
Import RefLib RefLibFacts.

Lemma calls_only_add_sample :
  ∃ s' r',
    exec_ops [OpNew 1 [1%float]; OpTrain [0]; OpAddCross unit_cross]
      ([], new_Regression) = Some (s', r') ∧
    length (@nil DataPoint) ≤ length s' ∧
    LastTrained r' = LastTrained new_Regression.
Proof.
  eexists _, _. split; [reflexivity|].
  destruct (calls_only_add
              [OpNew 1 [1%float]; OpTrain [0]; OpAddCross unit_cross]
              [] new_Regression _ _ eq_refl) as (_ & _ & _ & Hl & Ht).
  split; [exact Hl|exact Ht].
Defined.




Lemma Run_coefficient_keys_sample :
  ∃ s' r',
    Run square_store square_model false = Some (s', r', None) ∧
    Coeff r' (-1) = 0%float.
Proof.
  destruct Run_square_model as (s' & r' & Hrun).
  exists s', r'. split; [exact Hrun|].
  destruct (Run_coefficient_keys _ _ _ _ _ Hrun (-1)%Z) as [_ Hout].
  apply Hout. left. lia.
Defined.

Lemma Predict_panics_sample :
  Predict tight_store tight_model [1%float] = None.
Proof.
  apply (proj2 (Predict_panics tight_store tight_model [1%float] eq_refl)).
  right. right. exists [1%float], 2.
  split_and!; [reflexivity|reflexivity|simpl; lia].
Defined.

Lemma Run_panics_on_short_point_sample :
  Run ragged_store tight_model false = None.
Proof.
  refine (proj2 (Run_panics_on_short_point ragged_store tight_model false
                   eq_refl eq_refl) ragged_store _ 1 2 _ _ _ _ _).
  - reflexivity.
  - reflexivity.
  - simpl. lia.
  - apply list_elem_of_lookup. by exists 2.
  - intros dp Hdp. injection Hdp as <-. simpl. lia.
Defined.


Lemma crosses_once_per_registration_sample :
  ∃ dp',
    [mkDataPoint 1 [1; 1; 1]%float 0 0] !! 0 = Some dp' ∧
    length (Variables dp') = 3.
Proof.
  refine (crosses_once_per_registration [unit_cross] 1 [0; 0]
            [mkDataPoint 1 [1%float] 0 0]
            [mkDataPoint 1 [1; 1; 1]%float 0 0] 0
            (mkDataPoint 1 [1%float] 0 0) _ eq_refl eq_refl).
  intros v v' H. injection H as <-. rewrite length_app. simpl. lia.
Defined.

Lemma Predict_after_registration_sample :
  Predict tight_store (Train tight_model [7]) [1; 2]%float
    = Predict tight_store tight_model [1; 2]%float.
Proof.
  refine (proj1 (Predict_after_registration tight_store tight_model
                   [1; 2]%float [1; 2]%float 2 eq_refl eq_refl eq_refl _)
            [7]).
  simpl. lia.
Defined.

Lemma MakeDataPoints_ragged_sample :
  MakeDataPoints [] ragged_table 2
    = Some ([ mkDataPoint 3 [1; 2]%float 0 0;
              mkDataPoint 6 [4; 5]%float 0 0 ]%float, [0; 1]).
Proof.
  refine (proj1 (proj2 (MakeDataPoints_ragged [] _ _ 2 _)) _ _);
    [|done|done].
  repeat (apply Forall_cons_2; [simpl; lia|]). apply Forall_nil_2.
Defined.

End MoreSamples.
